(** * OpenXcom script engine (src/Engine/Script.h): a shallow embedding

    The development follows the header top-down:
    - [Arg]: the [ArgSpecEnum]/[ArgEnum] bit algebra and [ArgCompatible];
    - [Cpp]: the fragment of the C++ type language and of <type_traits>
      that [helper::TypeInfoImpl] and [getArgType] are written in;
    - [Parser]: the type registry ([registeTypeImpl]), [getArgType] and
      [ScriptValueData];
    - [Container]: [ScriptContainerBase] and [ScriptContainerEventsBase];
    - [Worker]: the register file, [forReg], [updateBase], [set], [get],
      [reset] and the two [execute] overloads;
    - [Ref]: [ScriptRange<char>] / [ScriptRef].
    - [Prog], [Tag], [RefData]: [ProgPos], [ScriptTag], [ScriptRefData].

    Conventions.  [Uint8] and [size_t] values are integers in [Z] with
    the conversions written out; the data model is LP64
    (pointers are 8 bytes wide, [int] is 4 bytes wide).  Object representations
    are lists of bytes. *)

From Stdlib Require Import ZArith Lia List Bool.
From stdpp Require Import base list.

Set Default Proof Using "Type".

(** ** Integer conversions *)

Definition to_Uint8 (z : Z) : Z := (z mod 256)%Z.
Definition to_size_t (z : Z) : Z := (z mod 2 ^ 64)%Z.
Definition to_int (z : Z) : Z := ((z + 2 ^ 31) mod 2 ^ 32 - 2 ^ 31)%Z.

Definition is_Uint8 (z : Z) : Prop := (0 <= z < 256)%Z.
Definition is_size_t (z : Z) : Prop := (0 <= z < 2 ^ 64)%Z.

(** Bounded universal quantification over bytes, used to settle
    statements about the flag algebra by evaluation. *)
Fixpoint below (n : nat) (P : Z -> bool) : bool :=
  match n with
  | O => true
  | S k => P (Z.of_nat k) && below k P
  end.

Definition all_Uint8 (P : Z -> bool) : bool := below 256 P.

Module Arg.
Local Open Scope Z_scope.

(** *** enum ArgSpecEnum : Uint8 *)
Definition ArgSpecNone : Z := 0x0.
Definition ArgSpecReg : Z := 0x1.
Definition ArgSpecVar : Z := 0x3.
Definition ArgSpecPtr : Z := 0x4.
Definition ArgSpecPtrE : Z := 0xC.
Definition ArgSpecSize : Z := 0x10.

(** [operator|], [operator&], [operator^] on [ArgSpecEnum]. *)
Definition spec_or (a b : Z) : Z := to_Uint8 (Z.lor a b).
Definition spec_and (a b : Z) : Z := to_Uint8 (Z.land a b).
Definition spec_xor (a b : Z) : Z := to_Uint8 (Z.lxor a b).

(** *** enum ArgEnum : Uint8 *)
Definition ArgInvalid : Z := ArgSpecSize * 0.
Definition ArgNull : Z := ArgSpecSize * 1.
Definition ArgInt : Z := ArgSpecSize * 2.
Definition ArgLabel : Z := ArgSpecSize * 3.
Definition ArgMax : Z := ArgSpecSize * 4.

(** Next available value for arg type; the sum is computed in [int] and
    cast back to the [Uint8]-based enumeration. *)
Definition ArgNext (arg : Z) : Z := to_Uint8 (arg + ArgSpecSize).

(** Base version of argument type: [arg & ~(ArgSpecSize - 1)], the mask
    being the [int] value [~15 = -16]. *)
Definition ArgBase (arg : Z) : Z :=
  to_Uint8 (Z.land arg (Z.lnot (ArgSpecSize - 1))).

(** Specialized version of argument type. *)
Definition ArgSpecAdd (arg spec : Z) : Z :=
  if negb (ArgBase arg =? ArgInvalid) then to_Uint8 (Z.lor arg spec) else arg.

(** Remove specialization from argument type. *)
Definition ArgSpecRemove (arg spec : Z) : Z :=
  if negb (ArgBase arg =? ArgInvalid)
  then to_Uint8 (Z.land arg (Z.lnot spec)) else arg.

Definition ArgIsReg (arg : Z) : bool := Z.land arg ArgSpecReg =? ArgSpecReg.
Definition ArgIsVar (arg : Z) : bool := Z.land arg ArgSpecVar =? ArgSpecVar.
Definition ArgIsPtr (arg : Z) : bool := Z.land arg ArgSpecPtr =? ArgSpecPtr.
Definition ArgIsPtrE (arg : Z) : bool := Z.land arg ArgSpecPtrE =? ArgSpecPtrE.

(** The cascade of guards of [ArgCompatible]: [true] when one of the
    conditional operators selects the [0] branch. *)
Definition ArgIncompatible (argType varType : Z) : bool :=
  if argType =? ArgInvalid then true
  else if ArgIsVar argType && negb (argType =? varType) then true
  else if negb (ArgBase argType =? ArgBase varType) then true
  else if negb (eqb (ArgIsReg argType) (ArgIsReg varType)) then true
  else if negb (eqb (ArgIsPtr argType) (ArgIsPtr varType)) then true
  else if ArgIsPtrE argType && ArgIsPtr varType then true
  else false.

(** Compatibility between operation argument type and variable type.
    The last operand has type [size_t], so the final subtraction is done
    in [size_t] and the result converted to the [int] return type. *)
Definition ArgCompatible (argType varType overloadSize : Z) : Z :=
  if ArgIncompatible argType varType then 0
  else
    to_int (to_size_t
      (255
       - (if negb (eqb (ArgIsPtrE argType) (ArgIsPtrE varType)) then 128 else 0)
       - (if negb (eqb (ArgIsVar argType) (ArgIsVar varType)) then 64 else 0)
       - (if overloadSize >? 8 then 8 else overloadSize))).

(** *** The score as the specification words it

    Zero when the base types differ, when register-ness or ptr-ness
    differs, when A is var and A is not exactly V, or when A is
    ptr_editable and V is a non-editable pointer; otherwise
    255 - 128 [ptr_editable flags differ] - 64 [var flags differ]
    - min(n, 8). *)
Definition spec_zero_case (A V : Z) : bool :=
  negb (ArgBase A =? ArgBase V)
  || negb (eqb (ArgIsReg A) (ArgIsReg V))
  || negb (eqb (ArgIsPtr A) (ArgIsPtr V))
  || (ArgIsVar A && negb (A =? V))
  || (ArgIsPtrE A && (ArgIsPtr V && negb (ArgIsPtrE V))).

Definition spec_score (A V n : Z) : Z :=
  255
  - (if negb (eqb (ArgIsPtrE A) (ArgIsPtrE V)) then 128 else 0)
  - (if negb (eqb (ArgIsVar A) (ArgIsVar V)) then 64 else 0)
  - Z.min n 8.

Definition compat_spec (A V n : Z) : Z :=
  if spec_zero_case A V then 0 else spec_score A V n.

(** The case list with the guard on the invalid kind added. *)
Definition compat_amended (A V n : Z) : Z :=
  if (A =? ArgInvalid) || spec_zero_case A V then 0 else spec_score A V n.

(** The flag combinations a host type can be decorated with. *)
Definition flag_combinations : list Z :=
  [ArgSpecNone; ArgSpecReg; ArgSpecVar; ArgSpecPtr; ArgSpecPtrE;
   spec_or ArgSpecReg ArgSpecPtr; spec_or ArgSpecVar ArgSpecPtr;
   spec_or ArgSpecReg ArgSpecPtrE; spec_or ArgSpecVar ArgSpecPtrE].

(** A registered host type: a base value with no flag bits, not the
    invalid one. *)
Definition is_host_type (T : Z) : Prop :=
  is_Uint8 T /\ ArgBase T = T /\ T <> ArgInvalid.

(** *** Checks over all bytes, decided by evaluation *)

(** Away from the pair (editable declared pointer, editable supplied
    pointer) the guards of the code are those of the amended case list. *)
Definition guards_agree (A V : Z) : bool :=
  (ArgIsPtrE A && ArgIsPtrE V)
  || eqb (ArgIncompatible A V) ((A =? ArgInvalid) || spec_zero_case A V).

(** Every zero case of the amended list is a zero case of the code. *)
Definition zero_case_rejected (A V : Z) : bool :=
  negb ((A =? ArgInvalid) || spec_zero_case A V) || ArgIncompatible A V.

(** A declared editable pointer is rejected whatever is supplied. *)
Definition ptrE_rejected (A V : Z) : bool :=
  negb (ArgIsPtrE A) || ArgIncompatible A V.

(** Self-compatibility of a decorated kind that is not an editable
    pointer: the maximal score. *)
Definition self_score_ok (T : Z) : bool :=
  (ArgBase T =? ArgInvalid) || negb (ArgBase T =? T)
  || forallb (fun F => ArgIsPtrE F
                       || (ArgCompatible (ArgSpecAdd T F) (ArgSpecAdd T F) 0 =? 255))
             flag_combinations.

(** Decorating keeps the base, is undone by [ArgSpecRemove] up to the
    flags already present, and is idempotent. *)
Definition decorate_ok (a : Z) : bool :=
  below 16 (fun s =>
    (ArgBase (ArgSpecAdd a s) =? ArgBase a)
    && (ArgSpecRemove (ArgSpecAdd a s) s =? ArgSpecRemove a s)
    && (ArgSpecAdd (ArgSpecAdd a s) s =? ArgSpecAdd a s)
    && (ArgBase (ArgSpecRemove a s) =? ArgBase a)).

(** The two relaxations and their refused converses, for one base. *)
Definition relaxations_ok (T : Z) : bool :=
  (ArgBase T =? ArgInvalid) || negb (ArgBase T =? T)
  || (negb (ArgIncompatible (ArgSpecAdd T ArgSpecReg) (ArgSpecAdd T ArgSpecVar))
      && (spec_score (ArgSpecAdd T ArgSpecReg) (ArgSpecAdd T ArgSpecVar) 0 =? 191)
      && ArgIncompatible (ArgSpecAdd T ArgSpecVar) (ArgSpecAdd T ArgSpecReg)
      && negb (ArgIncompatible (ArgSpecAdd T ArgSpecPtr) (ArgSpecAdd T ArgSpecPtrE))
      && (spec_score (ArgSpecAdd T ArgSpecPtr) (ArgSpecAdd T ArgSpecPtrE) 0 =? 127)
      && ArgIncompatible (ArgSpecAdd T ArgSpecPtrE) (ArgSpecAdd T ArgSpecPtr)
      && ArgIncompatible T (ArgSpecAdd T ArgSpecReg)
      && ArgIncompatible (ArgSpecAdd T ArgSpecReg) T).

End Arg.

(** ** The C++ types the templates are instantiated with *)
Module Cpp.

(** Object types that are neither pointers nor references.  A class
    type is identified by a number and carries the two properties the
    header asks about: whether it is POD and its size in bytes. *)
Inductive Object : Type :=
| Tint
| Tnullptr_t
| TProgPos
| Tclass (id : nat) (pod : bool) (size : nat).

(** [Obj c o] is [o] or [const o]; [Ptr c t] is [t*] or [t* const];
    [Ref t] is [t&].  A reference carries no qualifier of its own. *)
Inductive CType : Type :=
| Obj (c : bool) (o : Object)
| Ptr (c : bool) (t : CType)
| Ref (t : CType).

#[global] Instance Object_eq_dec : EqDecision Object.
Proof. solve_decision. Defined.

#[global] Instance CType_eq_dec : EqDecision CType.
Proof. solve_decision. Defined.

(** <type_traits> *)
Definition is_reference (T : CType) : bool :=
  match T with Ref _ => true | _ => false end.

Definition is_const (T : CType) : bool :=
  match T with Obj c _ => c | Ptr c _ => c | Ref _ => false end.

Definition is_pointer (T : CType) : bool :=
  match T with Ptr _ _ => true | _ => false end.

Definition remove_reference (T : CType) : CType :=
  match T with Ref u => u | _ => T end.

Definition remove_cv (T : CType) : CType :=
  match T with Obj _ o => Obj false o | Ptr _ u => Ptr false u | Ref u => Ref u end.

Definition decay (T : CType) : CType := remove_cv (remove_reference T).

Definition remove_pointer (T : CType) : CType :=
  match T with Ptr _ u => u | _ => T end.

Definition is_pod (T : CType) : bool :=
  match T with
  | Obj _ (Tclass _ pod _) => pod
  | Obj _ _ => true
  | Ptr _ _ => true
  | Ref _ => false
  end.

Fixpoint sizeof (T : CType) : nat :=
  match T with
  | Obj _ Tint => 4
  | Obj _ Tnullptr_t => 8
  | Obj _ TProgPos => 8
  | Obj _ (Tclass _ _ size) => size
  | Ptr _ _ => 8
  | Ref u => sizeof u
  end.

(** What the claim calls a non-const reference type: a reference whose
    referred type is not const-qualified. *)
Definition is_nonconst_reference (T : CType) : bool :=
  match T with Ref u => negb (is_const u) | _ => false end.

(** What the claim calls a pointer whose pointee the host may mutate:
    after decay, a pointer to a type that is not const-qualified. *)
Definition is_pointer_to_nonconst (T : CType) : bool :=
  match decay T with Ptr _ u => negb (is_const u) | _ => false end.

(** A reference to a const-qualified type, such as [const int&]. *)
Definition is_const_reference (T : CType) : bool :=
  match T with Ref u => is_const u | _ => false end.

End Cpp.

(** ** helper::TypeInfoImpl *)
Module TypeInfoImpl.
Import Cpp.

Definition t1 (T : CType) : CType := decay T.
Definition t2 (T : CType) : CType := remove_pointer (t1 T).
Definition t3 (T : CType) : CType := decay (t2 T).

Definition isRef (T : CType) : bool := is_reference T.
Definition isOutput (T : CType) : bool := isRef T && negb (is_const T).
Definition isPtr (T : CType) : bool := is_pointer (t1 T).
Definition isEditable (T : CType) : bool := isPtr T && negb (is_const (t2 T)).

Definition size (T : CType) : nat := if is_pod (t3 T) then sizeof (t3 T) else 0.

(** The [static_assert] of the template: [size || isPtr]. *)
Definition instantiates (T : CType) : bool := negb (size T =? 0)%nat || isPtr T.

End TypeInfoImpl.

(** ** ScriptParserBase: the type registry, getArgType, ScriptValueData *)
Module Parser.
Import Cpp Arg.
Local Open Scope Z_scope.

(** The function-local statics of the registry: the counter [curr] of
    [registeTypeImplNextValue] and, for every instantiation
    [registeTypeImpl<T>] whose static [curr] has been initialised, its
    value. *)
Record Registry : Type := mkRegistry {
  next_value : Z;
  statics : list (CType * Z)
}.

Definition Registry0 : Registry := mkRegistry ArgMax [].

Fixpoint static_of (T : CType) (l : list (CType * Z)) : option Z :=
  match l with
  | [] => None
  | (U, v) :: l' => if decide (U = T) then Some v else static_of T l'
  end.

Definition registeTypeImplNextValue (r : Registry) : Z * Registry :=
  let old := next_value r in
  (old, mkRegistry (ArgNext (next_value r)) (statics r)).

Definition registeTypeImpl (T : CType) (r : Registry) : Z * Registry :=
  if decide (T = Obj false Tint) then (ArgInt, r)
  else if decide (T = Obj false Tnullptr_t) then (ArgNull, r)
  else if decide (T = Obj false TProgPos) then (ArgLabel, r)
  else
    match static_of T (statics r) with
    | Some curr => (curr, r)
    | None =>
        let '(curr, r') := registeTypeImplNextValue r in
        (curr, mkRegistry (next_value r') ((T, curr) :: statics r'))
    end.

(** The [spec] value built by the three [if] statements of getArgType. *)
Definition argSpec (T : CType) : Z :=
  let spec := ArgSpecNone in
  let spec := if TypeInfoImpl.isRef T then spec_or spec ArgSpecVar else spec in
  let spec := if TypeInfoImpl.isPtr T then spec_or spec ArgSpecPtr else spec in
  let spec := if TypeInfoImpl.isEditable T then spec_or spec ArgSpecPtrE else spec in
  spec.

(** Register type to get run time value representing it. *)
Definition getArgType (T : CType) (r : Registry) : Z * Registry :=
  let '(base, r') := registeTypeImpl (TypeInfoImpl.t3 T) r in
  (ArgSpecAdd base (argSpec T), r').

(** Calls of getArgType made for other types, in order. *)
Definition getArgTypes (Us : list CType) (r : Registry) : Registry :=
  fold_left (fun r U => snd (getArgType U r)) Us r.

(** *** struct ScriptValueData *)
Record ScriptValueData : Type := mkValueData {
  data : list Z;
  type : Z;
  size : Z
}.

Inductive Exception : Type :=
| InvalidCastOfValue.   (* Exception("Invalid cast of value") *)

(** [memcpy(dst, src, n)] on object representations. *)
Definition memcpy (dst src : list Z) (n : nat) : list Z :=
  take n src ++ drop n dst.

(** Default constructor: the storage is left as it is. *)
Definition ScriptValueData_default (storage : list Z) : ScriptValueData :=
  mkValueData storage ArgInvalid 0.

(** Copy constructor from pod type: [storage] is the content of the
    eight bytes of [data] before the constructor runs, [t] the object
    representation of the argument. *)
Definition ScriptValueData_of (T : CType) (t storage : list Z) (r : Registry)
  : ScriptValueData * Registry :=
  let '(a, r') := getArgType T r in
  (mkValueData (memcpy storage t (sizeof T)) a (to_Uint8 (Z.of_nat (sizeof T))), r').

(** Test if value have have selected type. *)
Definition isValueType (T : CType) (v : ScriptValueData) (r : Registry)
  : bool * Registry :=
  let '(a, r') := getArgType T r in (type v =? a, r').

(** Get current stored value. *)
Definition getValue (T : CType) (v : ScriptValueData) (r : Registry)
  : (Exception + list Z) * Registry :=
  let '(same, r') := isValueType T v r in
  if negb same then (inl InvalidCastOfValue, r')
  else (inr (take (sizeof T) (data v)), r').

(** The values the registry hands out are flag-free bytes. *)
Definition is_base (v : Z) : Prop := is_Uint8 v /\ ArgBase v = v.

Definition Registry_ok (r : Registry) : Prop :=
  is_base (next_value r) /\ Forall (fun e => is_base (snd e)) (statics r).

(** The [spec] value of getArgType as a function of the three traits. *)
Definition spec_of (r p e : bool) : Z :=
  let spec := ArgSpecNone in
  let spec := if r then spec_or spec ArgSpecVar else spec in
  let spec := if p then spec_or spec ArgSpecPtr else spec in
  let spec := if e then spec_or spec ArgSpecPtrE else spec in
  spec.

(** Decorating a valid flag-free base sets exactly the requested flags
    and keeps the base. *)
Definition flags_ok (b : Z) : bool :=
  (ArgBase b =? ArgInvalid) || negb (ArgBase b =? b)
  || forallb (fun r => forallb (fun p => forallb (fun e =>
       eqb (ArgIsVar (ArgSpecAdd b (spec_of r p e))) r
       && eqb (ArgIsPtrE (ArgSpecAdd b (spec_of r p e))) e
       && eqb (ArgIsPtr (ArgSpecAdd b (spec_of r p e))) (p || e)
       && (ArgBase (ArgSpecAdd b (spec_of r p e)) =? b))
     [true; false]) [true; false]) [true; false].

(** The three types with a fixed value. *)
Definition builtin (T : CType) : option Z :=
  if decide (T = Obj false Tint) then Some ArgInt
  else if decide (T = Obj false Tnullptr_t) then Some ArgNull
  else if decide (T = Obj false TProgPos) then Some ArgLabel
  else None.

(** [T] has its value [v]: every later call of [registeTypeImpl<T>]
    returns [v] and leaves the registry alone. *)
Definition known (T : CType) (v : Z) (r : Registry) : Prop :=
  builtin T = Some v \/ (builtin T = None /\ static_of T (statics r) = Some v).

(** Pointers to the first [n] class types. *)
Definition classes (n : nat) : list CType :=
  map (fun i => Ptr false (Obj false (Tclass i false 0))) (seq 0 n).

(** The value handed to the [k]-th type that asks for a fresh one:
    [ArgMax] advanced [k] times by [ArgNext]. *)
Definition handed_out (k : nat) : Z := to_Uint8 (ArgMax + ArgSpecSize * Z.of_nat k).

(** The statics were initialised one after the other, each for a type
    without a fixed value that had none yet, newest first. *)
Fixpoint statics_seq (l : list (CType * Z)) : Prop :=
  match l with
  | [] => True
  | (T, v) :: l' =>
      v = handed_out (length l') /\ builtin T = None /\ static_of T l' = None
      /\ statics_seq l'
  end.

Definition Registry_seq (r : Registry) : Prop :=
  statics_seq (statics r) /\ next_value r = handed_out (length (statics r)).

End Parser.

(** ** ScriptContainerBase, ScriptContainerEventsBase *)
Module Container.

(** Common base of script execution: the bytecode vector. *)
Record ScriptContainerBase : Type := mkContainer {
  _proc : list Z
}.

(** [std::vector::empty] *)
Definition empty {A} (v : list A) : bool :=
  match v with [] => true | _ :: _ => false end.

(** Test if is any script there. *)
Definition ScriptContainerBase_bool (c : ScriptContainerBase) : bool :=
  negb (empty (_proc c)).

(** Get pointer to proc data; [None] is [nullptr]. *)
Definition ScriptContainerBase_data (c : ScriptContainerBase) : option (list Z) :=
  if ScriptContainerBase_bool c then Some (_proc c) else None.

(** Common base of typed script with events.  [_events] points into an
    array of containers owned by the events parser: [Some l] is a
    pointer whose target and successors are the elements of [l]. *)
Record ScriptContainerEventsBase : Type := mkContainerEvents {
  _current : ScriptContainerBase;
  _events : option (list ScriptContainerBase)
}.

(** Test if is any script there. *)
Definition ScriptContainerEventsBase_bool (c : ScriptContainerEventsBase) : bool :=
  true.

Definition ScriptContainerEventsBase_data (c : ScriptContainerEventsBase)
  : option (list Z) :=
  ScriptContainerBase_data (_current c).

Definition dataEvents (c : ScriptContainerEventsBase)
  : option (list ScriptContainerBase) :=
  _events c.

End Container.

(** ** ScriptRange<char> and ScriptRef *)
Module Ref.
Local Open Scope Z_scope.

(** A range is a pair of addresses; the characters live in a memory
    that maps an address to the [unsigned char] stored there. *)
Record ScriptRef : Type := mkRef {
  _begin : Z;
  _end : Z
}.

Definition Memory : Type := Z -> Z.

Definition nullptr : Z := 0.
Definition npos : Z := 2 ^ 64 - 1.

(** Default constructor. *)
Definition ScriptRef_default : ScriptRef := mkRef nullptr nullptr.

(** Size of string range: the pointer difference converted to [size_t]. *)
Definition size (r : ScriptRef) : Z := to_size_t (_end r - _begin r).

(** Bool operator. *)
Definition ScriptRef_bool (r : ScriptRef) : bool := negb (_begin r =? _end r).

(** The characters of a range, first to last. *)
Definition chars (m : Memory) (r : ScriptRef) : list Z :=
  map (fun i => m (_begin r + Z.of_nat i)) (seq 0 (Z.to_nat (size r))).

(** Return sub range of current range. *)
Definition substr (r : ScriptRef) (p s : Z) : ScriptRef :=
  let totalSize := to_size_t (_end r - _begin r) in
  if p >=? totalSize then ScriptRef_default
  else
    let b := _begin r + p in
    if s >? to_size_t (totalSize - p) then mkRef b (_end r)
    else mkRef b (b + s).

(** [memcmp]: the difference of the first pair of bytes that differ, 0
    when the [n] bytes agree (only the sign is used by the callers). *)
Fixpoint memcmp (m : Memory) (p q : Z) (n : nat) : Z :=
  match n with
  | O => 0
  | S k => if m p =? m q then memcmp m (p + 1) (q + 1) k else m p - m q
  end.

(** Compare two ranges. *)
Definition compare (m : Memory) (a b : ScriptRef) : Z :=
  let size_a := size a in
  let size_b := size b in
  if size_a =? size_b then memcmp m (_begin a) (_begin b) (Z.to_nat size_a)
  else if size_a <? size_b then -1
  else 1.

(** Equal, notequal and less operators. *)
Definition op_eq (m : Memory) (a s : ScriptRef) : bool := compare m a s =? 0.
Definition op_ne (m : Memory) (a s : ScriptRef) : bool := negb (compare m a s =? 0).
Definition op_lt (m : Memory) (a s : ScriptRef) : bool := compare m a s <? 0.

(** A range as the constructors build it: begin not after end, inside
    the address space. *)
Definition valid (r : ScriptRef) : Prop :=
  0 <= _begin r /\ _begin r <= _end r /\ _end r < 2 ^ 64.

(** Lexicographic order on the first [n] bytes at [p] and [q]. *)
Definition bytes_less (m : Memory) (p q : Z) (n : nat) : Prop :=
  exists k : nat, (k < n)%nat
    /\ (forall i : nat, (i < k)%nat -> m (p + Z.of_nat i) = m (q + Z.of_nat i))
    /\ m (p + Z.of_nat k) < m (q + Z.of_nat k).

(** Find first occurrence of character in string range.  The range-for
    loop visits the [n] characters from [curr] on and returns
    [&curr - _begin] at the first hit. *)
Fixpoint find_loop (m : Memory) (c : Z) (first curr : Z) (n : nat) : Z :=
  match n with
  | O => npos
  | S k =>
      if m curr =? c then to_size_t (curr - first)
      else find_loop m c first (curr + 1) k
  end.

Definition find (m : Memory) (r : ScriptRef) (c : Z) : Z :=
  find_loop m c (_begin r) (_begin r) (Z.to_nat (size r)).

(** Create string based on current range. *)
Definition toString (m : Memory) (r : ScriptRef) : list Z :=
  if ScriptRef_bool r then chars m r else [].

(** Create temporary ref based on script: [s.data()] and [s.size()] of
    the [std::string]. *)
Definition tempFrom (data size : Z) : ScriptRef := mkRef data (data + size).

(** The memory holds the characters [s] from address [a] on. *)
Definition holds (m : Memory) (a : Z) (s : list Z) : Prop :=
  forall (i : nat) (x : Z), s !! i = Some x -> m (a + Z.of_nat i) = x.

End Ref.

(** ** ScriptWorkerBase, ScriptWorker, ScriptWorkerBlit *)
Module Worker.
Import Cpp Container.

Definition ScriptMaxOut : nat := 4.
Definition ScriptMaxArg : nat := 16.
Definition ScriptMaxReg : nat := 64 * 8.

(** [ScriptRawMemory<ScriptMaxReg> reg]: the bytes of the register file. *)
Definition RegFile : Type := list Z.

(** A [std::tuple] of host values, each as its object representation. *)
Definition Tuple : Type := list (list Z).

(** Accesses outside the buffer are not checked by the source and have
    no defined result: they are [None] here. *)
Definition bind {A B} (m : option A) (k : A -> option B) : option B :=
  match m with Some a => k a | None => None end.

Notation "'do' x <- m ; k" := (bind m (fun x => k))
  (at level 10, x name, m at level 100, k at level 200, only parsing).

(** Get value from reg: [ref<T>(offset)] read, resp. assigned.  The
    access covers the [sizeof] bytes of the decayed type at [offset]; a
    value assigned through the reference has that size. *)
Definition ref_get (T : CType) (offset : nat) (reg : RegFile) : option (list Z) :=
  if offset + sizeof (decay T) <=? length reg
  then Some (take (sizeof (decay T)) (drop offset reg))
  else None.

Definition ref_set (T : CType) (offset : nat) (v : list Z) (reg : RegFile)
  : option RegFile :=
  if (length v =? sizeof (decay T)) && (offset + sizeof (decay T) <=? length reg)
  then Some (list_inserts offset v reg)
  else None.

Definition memset (reg : RegFile) (c : Z) (n : nat) : RegFile :=
  replicate n c ++ drop n reg.

(** [helper::PosTag<RegSet>], [helper::PosTag<RegNone>],
    [helper::PosTag<RegGet>]: what the loop does with one slot. *)
Inductive PosTag : Type := RegSet | RegNone | RegGet.

Definition SetAllRegs (T : CType) : PosTag := RegSet.
Definition GetWritableRegs (T : CType) : PosTag :=
  if TypeInfoImpl.isOutput T then RegGet else RegNone.
Definition SetReadonlyRegs (T : CType) : PosTag :=
  if negb (TypeInfoImpl.isOutput T) then RegSet else RegNone.

(** Count offset.  Sizes and offsets are natural numbers: a pack has
    at most [ScriptMaxArg] members, far from the range of [int]. *)
Fixpoint offset (Args : list CType) (i : nat) : nat :=
  match Args with
  | [] => 0
  | First :: Rest =>
      match Rest with
      | [] => if 0 <? i then sizeof First else 0
      | _ :: _ =>
          (if 0 <? i then sizeof First else 0)
          + (if 1 <? i then offset Rest (i - 1) else 0)
      end
  end.

Definition offsetOutput (Args : list CType) : nat := offset Args (length Args).

Definition forRegImplLoop (BaseOffset i : nat) (Args : list CType) (tag : PosTag)
    (reg : RegFile) (arg : Tuple) : option (RegFile * Tuple) :=
  match tag with
  | RegSet =>
      do T <- Args !! i;
      let CurrentType := decay T in
      let CurrentOffset := BaseOffset + offset Args i in
      do v <- arg !! i;
      do reg' <- ref_set CurrentType CurrentOffset v reg;
      Some (reg', arg)
  | RegNone => Some (reg, arg)
  | RegGet =>
      do T <- Args !! i;
      let CurrentType := decay T in
      let CurrentOffset := BaseOffset + offset Args i in
      do v <- ref_get CurrentType CurrentOffset reg;
      Some (reg, <[i := v]> arg)
  end.

(** The pack expansion of [forRegImpl], left to right over the indices. *)
Fixpoint forRegImpl (BaseOffset : nat) (Filter : CType -> PosTag)
    (Args : list CType) (Is : list nat) (reg : RegFile) (arg : Tuple)
    : option (RegFile * Tuple) :=
  match Is with
  | [] => Some (reg, arg)
  | i :: Is' =>
      do T <- Args !! i;
      do st <- forRegImplLoop BaseOffset i Args (Filter T) reg arg;
      forRegImpl BaseOffset Filter Args Is' (fst st) (snd st)
  end.

Definition forReg (BaseOffset : nat) (Filter : CType -> PosTag)
    (Args : list CType) (reg : RegFile) (arg : Tuple) : option (RegFile * Tuple) :=
  forRegImpl BaseOffset Filter Args (seq 0 (length Args)) reg arg.

(** Update values in script. *)
Definition updateBase (OutputArgs Args : list CType) (args : Tuple) (reg : RegFile)
  : option RegFile :=
  let reg := memset reg 0%Z ScriptMaxReg in
  do st <- forReg (offsetOutput OutputArgs) SetAllRegs Args reg args;
  Some (fst st).

Definition set (Args : list CType) (arg : Tuple) (reg : RegFile) : option RegFile :=
  do st <- forReg 0 SetAllRegs Args reg arg; Some (fst st).

Definition get (Args : list CType) (arg : Tuple) (reg : RegFile) : option Tuple :=
  do st <- forReg 0 GetWritableRegs Args reg arg; Some (snd st).

Definition reset (Args : list CType) (arg : Tuple) (reg : RegFile) : option RegFile :=
  do st <- forReg 0 SetReadonlyRegs Args reg arg; Some (fst st).

(** Values that have the sizes of their types. *)
Definition typed (Args : list CType) (vals : Tuple) : Prop :=
  Forall2 (fun T v => length v = sizeof T) Args vals.

(** The bytes of slot [i] of a tuple laid out from [BaseOffset]. *)
Definition slot (BaseOffset : nat) (Args : list CType) (i : nat) (reg : RegFile)
  : list Z :=
  match Args !! i with
  | Some T => take (sizeof T) (drop (BaseOffset + offset Args i) reg)
  | None => []
  end.

Section Execute.

(** [executeBase] is defined in Script.cpp: it is a parameter here, a
    function of the bytecode pointer and the register file. *)
Variable executeBase : option (list Z) -> RegFile -> RegFile.

(** Execute standard script. *)
Definition execute (OutputArgs : list CType) (c : ScriptContainerBase)
    (arg : Tuple) (reg : RegFile) : option (RegFile * Tuple) :=
  do reg <- set OutputArgs arg reg;
  let reg := executeBase (ScriptContainerBase_data c) reg in
  do arg <- get OutputArgs arg reg;
  Some (reg, arg).

(** [while ( *ptr ) { reset(arg); executeBase(ptr->data()); ++ptr; }]:
    returns the pointer left on the first falsy container.  Running off
    the end of the array is an access with no defined result. *)
Fixpoint runEvents (OutputArgs : list CType) (arg : Tuple)
    (ptr : list ScriptContainerBase) (reg : RegFile)
    : option (list ScriptContainerBase * RegFile) :=
  match ptr with
  | [] => None
  | e :: next =>
      if ScriptContainerBase_bool e then
        do reg <- reset OutputArgs arg reg;
        runEvents OutputArgs arg next (executeBase (ScriptContainerBase_data e) reg)
      else Some (ptr, reg)
  end.

(** Execute standard script with global events. *)
Definition executeEvents (OutputArgs : list CType) (c : ScriptContainerEventsBase)
    (arg : Tuple) (reg : RegFile) : option (RegFile * Tuple) :=
  do reg <- set OutputArgs arg reg;
  let ptr := dataEvents c in
  do st <- match ptr with
           | Some p =>
               do st <- runEvents OutputArgs arg p reg;
               Some (Some (tail (fst st)), snd st)
           | None => Some (None, reg)
           end;
  let ptr := fst st in
  do reg <- reset OutputArgs arg (snd st);
  let reg := executeBase (ScriptContainerEventsBase_data c) reg in
  do reg <- match ptr with
            | Some p => do st <- runEvents OutputArgs arg p reg; Some (snd st)
            | None => Some reg
            end;
  do arg <- get OutputArgs arg reg;
  Some (reg, arg).

(** *** The events pass as the specification words it

    For each before-event: reset read-only inputs, run; reset, run the
    main script; for each after-event: reset read-only inputs, run;
    copy outputs to caller. *)
Fixpoint resetAndRun (OutputArgs : list CType) (arg : Tuple)
    (scripts : list (option (list Z))) (reg : RegFile) : option RegFile :=
  match scripts with
  | [] => Some reg
  | proc :: rest =>
      do reg <- reset OutputArgs arg reg;
      resetAndRun OutputArgs arg rest (executeBase proc reg)
  end.

Definition eventsPass (OutputArgs : list CType)
    (before : list ScriptContainerBase) (main : option (list Z))
    (after : list ScriptContainerBase) (arg : Tuple) (reg : RegFile)
    : option (RegFile * Tuple) :=
  do reg <- set OutputArgs arg reg;
  do reg <- resetAndRun OutputArgs arg
              (map ScriptContainerBase_data before ++ [main]
               ++ map ScriptContainerBase_data after) reg;
  do arg <- get OutputArgs arg reg;
  Some (reg, arg).

End Execute.

(** The array [_events] points into: the before-chain, a falsy
    terminator, the after-chain, a falsy terminator. *)
Inductive eventChains
  : option (list ScriptContainerBase) ->
    list ScriptContainerBase -> list ScriptContainerBase -> Prop :=
| chains_null : eventChains None [] []
| chains_array before t0 after t1 rest :
    Forall (fun e => ScriptContainerBase_bool e = true) before ->
    ScriptContainerBase_bool t0 = false ->
    Forall (fun e => ScriptContainerBase_bool e = true) after ->
    ScriptContainerBase_bool t1 = false ->
    eventChains (Some (before ++ t0 :: after ++ t1 :: rest)) before after.

(** *** ScriptWorkerBlit *)
Record ScriptWorkerBlit : Type := mkBlit {
  blit_reg : RegFile;
  blit_proc : option (list Z)
}.

(** [using Output = ScriptOutputArgs<int&, int>] *)
Definition BlitOutput : list CType := [Ref (Obj false Tint); Obj false Tint].

(** Clear all worker data. *)
Definition clear (w : ScriptWorkerBlit) : ScriptWorkerBlit :=
  mkBlit (blit_reg w) None.

(** Update data from container script. *)
Definition update (Args : list CType) (c : ScriptContainerBase) (args : Tuple)
    (w : ScriptWorkerBlit) : option ScriptWorkerBlit :=
  if ScriptContainerBase_bool c then
    let proc := ScriptContainerBase_data c in
    do reg <- updateBase BlitOutput Args args (blit_reg w);
    Some (mkBlit reg proc)
  else Some (clear w).

(** A script that adds one to every byte of the register file. *)
Definition bump (proc : option (list Z)) (reg : RegFile) : RegFile :=
  map (Z.add 1) reg.

End Worker.

(** ** enum class ProgPos : size_t *)
Module Prog.
Local Open Scope Z_scope.

Definition Unknown : Z := to_size_t (-1).
Definition Start : Z := 0.

(** [operator+=(ProgPos&, int)]: the [int] offset is converted to
    [size_t] and added modulo 2^64; the result is the new position. *)
Definition add_assign (pos offset : Z) : Z := to_size_t (pos + to_size_t offset).

(** [operator++(ProgPos&)] *)
Definition pre_inc (pos : Z) : Z := add_assign pos 1.

(** [operator++(ProgPos&, int)]: the returned value and the new position. *)
Definition post_inc (pos : Z) : Z * Z :=
  let old := pos in
  let pos := pre_inc pos in
  (old, pos).

Definition is_int (z : Z) : Prop := - 2 ^ 31 <= z < 2 ^ 31.

End Prog.

(** ** struct ScriptTag<T, I> *)
Module Tag.
Local Open Scope Z_scope.

(** A tag whose index type [I] is an unsigned integer of [w] bits; the
    static assertions of the template ask for [w] between 1 and 64. *)
Record ScriptTag : Type := mkTag {
  index : Z
}.

(** Max supported value. *)
Definition limit (w : Z) : Z := to_size_t (2 ^ w - 1).

(** Fake constructor: [static_cast<I>(i)]. *)
Definition make (w i : Z) : ScriptTag := mkTag (i mod 2 ^ w).

(** Get value. *)
Definition get (t : ScriptTag) : Z := to_size_t (index t).

(** Test if tag have valid value. *)
Definition ScriptTag_bool (t : ScriptTag) : bool := negb (index t =? 0).

(** Equal and notequal operators. *)
Definition op_eq (a t : ScriptTag) : bool := index a =? index t.
Definition op_ne (a t : ScriptTag) : bool := negb (op_eq a t).

(** Test if value can be used. *)
Definition isValid (w i : Z) : bool := negb (i =? 0) && (i <=? limit w).

(** Null value. *)
Definition getNullTag (w : Z) : ScriptTag := make w 0.

End Tag.

(** ** struct ScriptRefData *)
Module RefData.
Import Cpp Arg Parser Ref.
Local Open Scope Z_scope.

Record ScriptRefData : Type := mkRefData {
  name : ScriptRef;
  type : Z;
  value : ScriptValueData
}.

(** Default constructor; [storage] is what the value's bytes hold. *)
Definition ScriptRefData_default (storage : list Z) : ScriptRefData :=
  mkRefData ScriptRef_default ArgInvalid (ScriptValueData_default storage).

(** Get true if this valid reference. *)
Definition ScriptRefData_bool (d : ScriptRefData) : bool :=
  negb (type d =? ArgInvalid).

Definition isValueType (T : CType) (d : ScriptRefData) (r : Registry)
  : bool * Registry :=
  Parser.isValueType T (value d) r.

(** Get current stored value. *)
Definition getValue (T : CType) (d : ScriptRefData) (r : Registry)
  : (Exception + list Z) * Registry :=
  Parser.getValue T (value d) r.

(** Get current stored value if have that type or default value otherwise. *)
Definition getValueOrDefulat (T : CType) (def : list Z) (d : ScriptRefData)
    (r : Registry) : (Exception + list Z) * Registry :=
  let '(same, r') := Parser.isValueType T (value d) r in
  if same then Parser.getValue T (value d) r' else (inr def, r').

End RefData.

(** ** Facts about the conversions and the byte quantifier *)

Lemma below_spec (n : nat) (P : Z -> bool) :
  below n P = true -> forall z, (0 <= z < Z.of_nat n)%Z -> P z = true.
Proof.
  induction n as [|k IH]; intros Hb z Hz.
  - lia.
  - cbn [below] in Hb. apply andb_true_iff in Hb as [Hk Hrest].
    destruct (Z.eq_dec z (Z.of_nat k)) as [->|Hne]; [assumption|].
    apply IH; [assumption|lia].
Qed.

Lemma all_Uint8_spec (P : Z -> bool) :
  all_Uint8 P = true -> forall z, is_Uint8 z -> P z = true.
Proof.
  intros H z Hz. apply (below_spec 256 P H). unfold is_Uint8 in Hz. cbn. lia.
Qed.

Lemma to_int_small (z : Z) : (- 2 ^ 31 <= z < 2 ^ 31)%Z -> to_int z = z.
Proof. intros H. unfold to_int. rewrite Z.mod_small; lia. Qed.

Lemma to_size_t_small (z : Z) : (0 <= z < 2 ^ 64)%Z -> to_size_t z = z.
Proof. intros H. unfold to_size_t. apply Z.mod_small. lia. Qed.

Module ArgFacts.
Import Arg.
Local Open Scope Z_scope.

(** The score expression never leaves [55, 255], so neither conversion
    changes it. *)
Lemma score_conversions (p q : bool) (n : Z) :
  0 <= n ->
  to_int (to_size_t (255 - (if p then 128 else 0) - (if q then 64 else 0)
                     - (if n >? 8 then 8 else n)))
  = 255 - (if p then 128 else 0) - (if q then 64 else 0) - Z.min n 8.
Proof.
  intros Hn.
  assert (Hm : (if n >? 8 then 8 else n) = Z.min n 8).
  { destruct (n >? 8) eqn:E; lia. }
  rewrite Hm.
  rewrite to_size_t_small by (destruct p, q; lia).
  apply to_int_small. destruct p, q; lia.
Qed.

Lemma ArgCompatible_eq (A V n : Z) :
  0 <= n ->
  ArgCompatible A V n = if ArgIncompatible A V then 0 else spec_score A V n.
Proof.
  intros Hn. unfold ArgCompatible, spec_score.
  destruct (ArgIncompatible A V); [reflexivity|].
  apply score_conversions; assumption.
Qed.

Lemma guards_agree_all :
  all_Uint8 (fun A => all_Uint8 (fun V => guards_agree A V)) = true.
Proof. vm_compute. reflexivity. Qed.

Lemma guards_agree_spec (A V : Z) :
  is_Uint8 A -> is_Uint8 V ->
  ArgIsPtrE A && ArgIsPtrE V = false ->
  ArgIncompatible A V = (A =? ArgInvalid) || spec_zero_case A V.
Proof.
  intros HA HV HE.
  pose proof (all_Uint8_spec _ guards_agree_all A HA) as H1. cbv beta in H1.
  pose proof (all_Uint8_spec _ H1 V HV) as H2. cbv beta in H2.
  unfold guards_agree in H2. rewrite HE in H2. cbn [orb] in H2.
  apply eqb_prop in H2. exact H2.
Qed.

Lemma ptrE_rejected_all :
  all_Uint8 (fun A => all_Uint8 (fun V => ptrE_rejected A V)) = true.
Proof. vm_compute. reflexivity. Qed.

Lemma ArgCompatible_ptrE_zero (A V n : Z) :
  is_Uint8 A -> is_Uint8 V -> ArgIsPtrE A = true -> ArgCompatible A V n = 0.
Proof.
  intros HA HV HE.
  pose proof (all_Uint8_spec _ ptrE_rejected_all A HA) as H1. cbv beta in H1.
  pose proof (all_Uint8_spec _ H1 V HV) as H2. cbv beta in H2.
  unfold ptrE_rejected in H2. rewrite HE in H2. cbn in H2.
  unfold ArgCompatible. rewrite H2. reflexivity.
Qed.

Lemma self_score_ok_all : all_Uint8 self_score_ok = true.
Proof. vm_compute. reflexivity. Qed.

Lemma ArgCompatible_self_not_editable (T F : Z) :
  is_host_type T -> In F flag_combinations -> ArgIsPtrE F = false ->
  ArgCompatible (ArgSpecAdd T F) (ArgSpecAdd T F) 0 = 255.
Proof.
  intros (HT & HB & HI) HF HE.
  pose proof (all_Uint8_spec _ self_score_ok_all T HT) as H.
  unfold self_score_ok in H.
  rewrite HB in H.
  replace (T =? ArgInvalid) with false in H by (symmetry; apply Z.eqb_neq; exact HI).
  rewrite Z.eqb_refl in H. cbn [negb orb] in H.
  rewrite forallb_forall in H. specialize (H F HF).
  rewrite HE in H. cbn [orb] in H. apply Z.eqb_eq in H. exact H.
Qed.

(** C1 (as stated, refuted): at the invalid declared kind the case list
    of the specification yields the full score while the code yields 0. *)
Lemma ArgCompatible_not_spec_case_list :
  ArgCompatible ArgInvalid ArgInvalid 0 = 0
  /\ compat_spec ArgInvalid ArgInvalid 0 = 255
  /\ ~ (forall A V n, is_Uint8 A -> is_Uint8 V -> is_size_t n ->
        ArgCompatible A V n = compat_spec A V n).
Proof.
  split; [reflexivity|]. split; [reflexivity|].
  intros H. specialize (H ArgInvalid ArgInvalid 0).
  assert (Hc : ArgCompatible ArgInvalid ArgInvalid 0 = compat_spec ArgInvalid ArgInvalid 0).
  { apply H; unfold is_Uint8, is_size_t, ArgInvalid, ArgSpecSize; lia. }
  vm_compute in Hc. discriminate Hc.
Qed.

Lemma zero_case_rejected_all :
  all_Uint8 (fun A => all_Uint8 (fun V => zero_case_rejected A V)) = true.
Proof. vm_compute. reflexivity. Qed.

Lemma zero_case_rejected_spec (A V : Z) :
  is_Uint8 A -> is_Uint8 V ->
  (A =? ArgInvalid) || spec_zero_case A V = true -> ArgIncompatible A V = true.
Proof.
  intros HA HV HZ.
  pose proof (all_Uint8_spec _ zero_case_rejected_all A HA) as H1. cbv beta in H1.
  pose proof (all_Uint8_spec _ H1 V HV) as H2. cbv beta in H2.
  unfold zero_case_rejected in H2. rewrite HZ in H2. exact H2.
Qed.

(** C1 (amended): the score is 0 when A is the invalid kind, when the
    base types differ, when register-ness or ptr-ness differs, when A is
    var and A is not exactly V, or when A is ptr_editable and V is a
    non-editable pointer; in every other case in which A and V are not
    both ptr_editable, it is 255 minus 128 if the ptr_editable flags
    differ, minus 64 if the var flags differ, minus min(n, 8). *)
Theorem ArgCompatible_case_list (A V n : Z) :
  is_Uint8 A -> is_Uint8 V -> is_size_t n ->
  ((A =? ArgInvalid) || spec_zero_case A V = true -> ArgCompatible A V n = 0)
  /\ ((A =? ArgInvalid) || spec_zero_case A V = false ->
      ArgIsPtrE A && ArgIsPtrE V = false ->
      ArgCompatible A V n = spec_score A V n
      /\ ArgCompatible A V n = compat_amended A V n).
Proof.
  intros HA HV Hn. split.
  - intros HZ. unfold ArgCompatible.
    rewrite (zero_case_rejected_spec A V HA HV HZ). reflexivity.
  - intros HZ HE.
    rewrite ArgCompatible_eq by (unfold is_size_t in Hn; lia).
    unfold compat_amended.
    rewrite (guards_agree_spec A V HA HV HE), HZ. split; reflexivity.
Qed.

Lemma ArgCompatible_case_list_witness :
  ArgCompatible 0x45 0x4D 9 = spec_score 0x45 0x4D 9
  /\ ArgCompatible 0x45 0x4D 9 = compat_amended 0x45 0x4D 9.
Proof.
  apply (ArgCompatible_case_list 0x45 0x4D 9).
  - unfold is_Uint8; lia.
  - unfold is_Uint8; lia.
  - unfold is_size_t; lia.
  - reflexivity.
  - reflexivity.
Defined.

(** C2 (violated by the code): the first registered host type decorated
    as an editable pointer scores 0 against itself, not 255. *)
Theorem ArgCompatible_self_editable_pointer :
  ArgSpecAdd ArgMax ArgSpecPtrE = 0x4C
  /\ ArgCompatible (ArgSpecAdd ArgMax ArgSpecPtrE) (ArgSpecAdd ArgMax ArgSpecPtrE) 0 = 0.
Proof. split; reflexivity. Qed.

(** *** Further facts about the kind algebra *)

Lemma spec_score_ordinal (A V n : Z) :
  spec_score A V n = spec_score A V 0 - Z.min n 8.
Proof. unfold spec_score. lia. Qed.

Lemma land_absorb (a big small : Z) :
  Z.land big small = small -> Z.land a big = big -> Z.land a small = small.
Proof.
  intros Hs Hb. rewrite <- Hs at 1. rewrite Z.land_assoc, Hb. exact Hs.
Qed.

(** X1: a writable register is a register and an editable pointer is a
    pointer, for every integer value of the kind. *)
Theorem var_is_reg_ptrE_is_ptr (a : Z) :
  (ArgIsVar a = true -> ArgIsReg a = true)
  /\ (ArgIsPtrE a = true -> ArgIsPtr a = true).
Proof.
  unfold ArgIsVar, ArgIsReg, ArgIsPtrE, ArgIsPtr. split; intros H;
    apply Z.eqb_eq in H; apply Z.eqb_eq; eapply land_absorb; try exact H; reflexivity.
Qed.

Lemma decorate_ok_all : all_Uint8 decorate_ok = true.
Proof. vm_compute. reflexivity. Qed.

(** X2: for every kind [a] and every flag set [s] below [ArgSpecSize],
    [ArgSpecAdd] keeps the base and is idempotent, [ArgSpecRemove]
    keeps the base, removing after adding is the same as removing, and
    on an undecorated kind removing what was added gives the kind back. *)
Theorem ArgSpecAdd_ArgSpecRemove (a s : Z) :
  is_Uint8 a -> 0 <= s < ArgSpecSize ->
  ArgBase (ArgSpecAdd a s) = ArgBase a
  /\ ArgSpecAdd (ArgSpecAdd a s) s = ArgSpecAdd a s
  /\ ArgBase (ArgSpecRemove a s) = ArgBase a
  /\ ArgSpecRemove (ArgSpecAdd a s) s = ArgSpecRemove a s
  /\ (ArgBase a = a -> ArgSpecRemove (ArgSpecAdd a s) s = a).
Proof.
  intros Ha Hs.
  pose proof (all_Uint8_spec _ decorate_ok_all a Ha) as H. unfold decorate_ok in H.
  pose proof (below_spec 16 _ H s ltac:(unfold ArgSpecSize in Hs; cbn; lia)) as Hc.
  cbv beta in Hc.
  repeat (apply andb_true_iff in Hc as [Hc ?]).
  repeat match goal with E : (_ =? _) = true |- _ => apply Z.eqb_eq in E end.
  repeat split; try assumption.
  intros Hflat.
  assert (Hrem : ArgSpecRemove a s = a).
  { pose proof (all_Uint8_spec
      (fun a => negb (ArgBase a =? a)
                || below 16 (fun s => ArgSpecRemove a s =? a))
      ltac:(vm_compute; reflexivity) a Ha) as Hr.
    cbv beta in Hr. rewrite Hflat, Z.eqb_refl in Hr. cbn [negb orb] in Hr.
    pose proof (below_spec 16 _ Hr s ltac:(unfold ArgSpecSize in Hs; cbn; lia)) as Hr'.
    cbv beta in Hr'. apply Z.eqb_eq in Hr'. exact Hr'. }
  congruence.
Qed.

Lemma ArgSpecAdd_ArgSpecRemove_witness :
  ArgBase (ArgSpecAdd ArgInt ArgSpecVar) = ArgBase ArgInt
  /\ ArgSpecAdd (ArgSpecAdd ArgInt ArgSpecVar) ArgSpecVar = ArgSpecAdd ArgInt ArgSpecVar
  /\ ArgBase (ArgSpecRemove ArgInt ArgSpecVar) = ArgBase ArgInt
  /\ ArgSpecRemove (ArgSpecAdd ArgInt ArgSpecVar) ArgSpecVar
     = ArgSpecRemove ArgInt ArgSpecVar
  /\ (ArgBase ArgInt = ArgInt ->
      ArgSpecRemove (ArgSpecAdd ArgInt ArgSpecVar) ArgSpecVar = ArgInt).
Proof.
  apply (ArgSpecAdd_ArgSpecRemove ArgInt ArgSpecVar).
  - unfold is_Uint8, ArgInt, ArgSpecSize; lia.
  - unfold ArgSpecVar, ArgSpecSize; lia.
Defined.

(** X3: the score is 0 or lies between 55 and 255; whether it is 0
    does not depend on the overload ordinal; a larger ordinal never
    gives a larger score, and from ordinal 8 on the score is constant. *)
Theorem ArgCompatible_ordinal (A V n m : Z) :
  0 <= n -> n <= m ->
  (ArgCompatible A V n = 0 \/ 55 <= ArgCompatible A V n <= 255)
  /\ (ArgCompatible A V n = 0 <-> ArgCompatible A V 0 = 0)
  /\ ArgCompatible A V m <= ArgCompatible A V n
  /\ (8 <= n -> ArgCompatible A V n = ArgCompatible A V 8).
Proof.
  intros Hn Hm.
  rewrite !ArgCompatible_eq by lia.
  destruct (ArgIncompatible A V).
  - repeat split; auto; lia.
  - rewrite (spec_score_ordinal A V n), (spec_score_ordinal A V m),
      (spec_score_ordinal A V 8).
    assert (H0 : 119 <= spec_score A V 0 <= 255 \/ 63 <= spec_score A V 0 <= 255).
    { unfold spec_score.
      destruct (negb (eqb (ArgIsPtrE A) (ArgIsPtrE V)));
        destruct (negb (eqb (ArgIsVar A) (ArgIsVar V))); lia. }
    repeat split; try lia.
Qed.

Lemma ArgCompatible_ordinal_witness :
  ArgCompatible 0x41 0x43 20 <= ArgCompatible 0x41 0x43 3.
Proof.
  apply (ArgCompatible_ordinal 0x41 0x43 3 20); lia.
Defined.

Lemma relaxations_ok_all : all_Uint8 relaxations_ok = true.
Proof. vm_compute. reflexivity. Qed.

(** X4: a declared writable register accepts only the identical kind.
    For a host type T, a declared read-only register accepts a writable
    one at 191 - min(n, 8) and a declared read-only pointer accepts an
    editable one at 127 - min(n, 8), while the converses are refused,
    and so is a register where a plain value is declared or a plain
    value where a register is declared. *)
Theorem ArgCompatible_relaxations (A V T n : Z) :
  is_host_type T -> is_size_t n ->
  (ArgIsVar A = true -> ArgCompatible A V n <> 0 -> A = V)
  /\ ArgCompatible (ArgSpecAdd T ArgSpecReg) (ArgSpecAdd T ArgSpecVar) n
     = 191 - Z.min n 8
  /\ ArgCompatible (ArgSpecAdd T ArgSpecVar) (ArgSpecAdd T ArgSpecReg) n = 0
  /\ ArgCompatible (ArgSpecAdd T ArgSpecPtr) (ArgSpecAdd T ArgSpecPtrE) n
     = 127 - Z.min n 8
  /\ ArgCompatible (ArgSpecAdd T ArgSpecPtrE) (ArgSpecAdd T ArgSpecPtr) n = 0
  /\ ArgCompatible T (ArgSpecAdd T ArgSpecReg) n = 0
  /\ ArgCompatible (ArgSpecAdd T ArgSpecReg) T n = 0.
Proof.
  intros (HT & HB & HI) Hn. unfold is_size_t in Hn.
  split.
  { intros Hv Hnz. destruct (Z.eq_dec A V) as [E|E]; [exact E|].
    exfalso. apply Hnz. unfold ArgCompatible, ArgIncompatible.
    rewrite Hv. apply Z.eqb_neq in E. rewrite E.
    destruct (A =? ArgInvalid); reflexivity. }
  pose proof (all_Uint8_spec _ relaxations_ok_all T HT) as H.
  unfold relaxations_ok in H. rewrite HB in H.
  replace (T =? ArgInvalid) with false in H by (symmetry; apply Z.eqb_neq; exact HI).
  rewrite Z.eqb_refl in H. cbn [negb orb] in H.
  repeat (apply andb_true_iff in H as [H ?]).
  repeat match goal with E : negb _ = true |- _ => apply negb_true_iff in E end.
  repeat match goal with E : (_ =? _) = true |- _ => apply Z.eqb_eq in E end.
  rewrite !ArgCompatible_eq by lia.
  repeat match goal with E : ArgIncompatible _ _ = _ |- _ => rewrite E; clear E end.
  rewrite (spec_score_ordinal (ArgSpecAdd T ArgSpecReg)),
    (spec_score_ordinal (ArgSpecAdd T ArgSpecPtr)).
  repeat split; lia.
Qed.

Lemma ArgCompatible_relaxations_witness :
  ArgCompatible (ArgSpecAdd ArgMax ArgSpecReg) (ArgSpecAdd ArgMax ArgSpecVar) 2 = 191 - Z.min 2 8.
Proof.
  apply (ArgCompatible_relaxations 0 0 ArgMax 2).
  - split; [unfold is_Uint8, ArgMax, ArgSpecSize; lia|].
    split; [reflexivity | unfold ArgMax, ArgInvalid, ArgSpecSize; lia].
  - unfold is_size_t; lia.
Defined.

End ArgFacts.

(** ** getArgType and ScriptValueData *)
Module ParserFacts.
Import Cpp Arg Parser.
Local Open Scope Z_scope.

(** *** The traits of TypeInfoImpl *)

(** [std::is_const] of a reference type is false, so [isOutput] holds
    of every reference type. *)
Lemma isOutput_isRef (T : CType) : TypeInfoImpl.isOutput T = TypeInfoImpl.isRef T.
Proof. destruct T; reflexivity. Qed.

Lemma isRef_is_reference (T : CType) :
  TypeInfoImpl.isRef T = true <-> exists U, T = Ref U.
Proof.
  destruct T; cbn; split; intros H; try discriminate; try (destruct H; discriminate);
    eauto.
Qed.

Lemma isEditable_pointer_to_nonconst (T : CType) :
  TypeInfoImpl.isEditable T = is_pointer_to_nonconst T.
Proof.
  unfold TypeInfoImpl.isEditable, TypeInfoImpl.isPtr, TypeInfoImpl.t2,
    TypeInfoImpl.t1, is_pointer_to_nonconst.
  destruct (decay T); reflexivity.
Qed.

(** *** Flags of a decorated base *)

Lemma flags_ok_all : all_Uint8 flags_ok = true.
Proof. vm_compute. reflexivity. Qed.

Lemma ArgSpecAdd_flags (b : Z) (r p e : bool) :
  is_base b -> b <> ArgInvalid ->
  ArgIsVar (ArgSpecAdd b (spec_of r p e)) = r
  /\ ArgIsPtrE (ArgSpecAdd b (spec_of r p e)) = e
  /\ ArgIsPtr (ArgSpecAdd b (spec_of r p e)) = (p || e)%bool
  /\ ArgBase (ArgSpecAdd b (spec_of r p e)) = b.
Proof.
  intros [Hb HB] Hne.
  pose proof (all_Uint8_spec _ flags_ok_all b Hb) as H.
  unfold flags_ok in H. rewrite HB in H.
  replace (b =? ArgInvalid) with false in H by (symmetry; apply Z.eqb_neq; exact Hne).
  rewrite Z.eqb_refl in H. cbn [negb orb] in H.
  rewrite forallb_forall in H.
  assert (Hin : forall x : bool, In x [true; false]) by (intros []; cbn; auto).
  specialize (H r (Hin r)). rewrite forallb_forall in H.
  specialize (H p (Hin p)). rewrite forallb_forall in H.
  specialize (H e (Hin e)).
  repeat (apply andb_true_iff in H as [H ?]).
  repeat split; try (apply eqb_prop; assumption).
  apply Z.eqb_eq; assumption.
Qed.

(** An invalid base is returned undecorated. *)
Lemma ArgSpecAdd_invalid (spec : Z) : ArgSpecAdd ArgInvalid spec = ArgInvalid.
Proof. reflexivity. Qed.

(** *** The registry *)

Lemma is_base_ArgNext (v : Z) : is_base v -> is_base (ArgNext v).
Proof.
  intros [Hv HB].
  pose proof (all_Uint8_spec
    (fun v => negb (ArgBase v =? v)
              || (((0 <=? ArgNext v) && (ArgNext v <? 256))
                  && (ArgBase (ArgNext v) =? ArgNext v)))
    ltac:(vm_compute; reflexivity) v Hv) as H.
  cbv beta in H. rewrite HB, Z.eqb_refl in H. cbn [negb orb] in H.
  apply andb_true_iff in H as [H1 H2]. apply andb_true_iff in H1 as [H0 H1].
  split; [unfold is_Uint8; lia | apply Z.eqb_eq; exact H2].
Qed.

Lemma Registry0_ok : Registry_ok Registry0.
Proof.
  split; [|constructor]. split; [unfold is_Uint8, Registry0, ArgMax, ArgSpecSize; cbn; lia | reflexivity].
Qed.

Lemma static_of_is_base T l v :
  Forall (fun e => is_base (snd e)) l -> static_of T l = Some v -> is_base v.
Proof.
  induction 1 as [|[U w] l Hw Hl IH]; cbn; [discriminate|].
  destruct (decide (U = T)); [intros [= <-]; exact Hw | exact IH].
Qed.

Lemma registeTypeImpl_ok T r :
  Registry_ok r ->
  is_base (fst (registeTypeImpl T r)) /\ Registry_ok (snd (registeTypeImpl T r)).
Proof.
  intros [Hn Hs]. unfold registeTypeImpl.
  repeat (destruct (decide _));
    try (split; [split; [unfold is_Uint8, ArgInt, ArgNull, ArgLabel, ArgSpecSize; cbn; lia | reflexivity] | split; assumption]).
  destruct (static_of T (statics r)) as [curr|] eqn:E; cbn.
  - split; [eapply static_of_is_base; eassumption | split; assumption].
  - split; [assumption|]. split; cbn.
    + apply is_base_ArgNext; assumption.
    + constructor; assumption.
Qed.

Lemma getArgType_ok T r : Registry_ok r -> Registry_ok (snd (getArgType T r)).
Proof.
  intros H. unfold getArgType.
  pose proof (registeTypeImpl_ok (TypeInfoImpl.t3 T) r H) as [_ H2].
  destruct (registeTypeImpl (TypeInfoImpl.t3 T) r); exact H2.
Qed.

Lemma registeTypeImpl_cases T r :
  registeTypeImpl T r =
  match builtin T with
  | Some v => (v, r)
  | None =>
      match static_of T (statics r) with
      | Some curr => (curr, r)
      | None => (next_value r,
                 mkRegistry (ArgNext (next_value r)) ((T, next_value r) :: statics r))
      end
  end.
Proof.
  unfold registeTypeImpl, builtin.
  repeat (destruct (decide _); [reflexivity|]).
  destruct (static_of T (statics r)); reflexivity.
Qed.

Lemma known_registeTypeImpl T v r : known T v r -> registeTypeImpl T r = (v, r).
Proof.
  rewrite registeTypeImpl_cases.
  intros [-> | [-> ->]]; reflexivity.
Qed.

Lemma registeTypeImpl_known T r :
  known T (fst (registeTypeImpl T r)) (snd (registeTypeImpl T r)).
Proof.
  rewrite registeTypeImpl_cases. unfold known.
  destruct (builtin T) as [v|] eqn:B; cbn; [left; reflexivity|].
  right. split; [reflexivity|].
  destruct (static_of T (statics r)) as [curr|] eqn:E; cbn.
  - exact E.
  - destruct (decide (T = T)); [reflexivity | contradiction].
Qed.

Lemma known_step T v U r : known T v r -> known T v (snd (registeTypeImpl U r)).
Proof.
  rewrite registeTypeImpl_cases. unfold known.
  intros [H | [HB HS]]; [left; exact H|]. right. split; [exact HB|].
  destruct (builtin U); cbn; [exact HS|].
  destruct (static_of U (statics r)) as [cu|] eqn:EU; cbn; [exact HS|].
  destruct (decide (U = T)) as [->|Hne]; [congruence | exact HS].
Qed.

Lemma known_getArgTypes T v Us r : known T v r -> known T v (getArgTypes Us r).
Proof.
  revert r. induction Us as [|U Us IH]; intros r H; [exact H|].
  cbn. apply IH. unfold getArgType.
  pose proof (known_step T v (TypeInfoImpl.t3 U) r H) as Hs.
  destruct (registeTypeImpl (TypeInfoImpl.t3 U) r); exact Hs.
Qed.

Lemma getArgType_known T r :
  known (TypeInfoImpl.t3 T) (fst (registeTypeImpl (TypeInfoImpl.t3 T) r))
        (snd (getArgType T r)).
Proof.
  unfold getArgType.
  pose proof (registeTypeImpl_known (TypeInfoImpl.t3 T) r) as H.
  destruct (registeTypeImpl (TypeInfoImpl.t3 T) r); exact H.
Qed.

Lemma getArgType_stable T Us r :
  getArgType T (getArgTypes Us (snd (getArgType T r)))
  = (fst (getArgType T r), getArgTypes Us (snd (getArgType T r))).
Proof.
  pose proof (known_getArgTypes _ _ Us _ (getArgType_known T r)) as H.
  apply known_registeTypeImpl in H. unfold getArgType at 1. rewrite H.
  unfold getArgType. destruct (registeTypeImpl (TypeInfoImpl.t3 T) r); reflexivity.
Qed.

(** The registry runs out: the counter is a [Uint8], so the thirteenth
    class type is handed the invalid base and stays undecorated. *)
Example registry_exhausted :
  let r := getArgTypes (classes 12) Registry0 in
  next_value r = ArgInvalid
  /\ fst (getArgType (Ptr false (Obj false (Tclass 12 false 0))) r) = ArgInvalid.
Proof. vm_compute. split; reflexivity. Qed.

(** *** Flags set by getArgType *)

Lemma argSpec_spec_of (T : CType) :
  argSpec T = spec_of (TypeInfoImpl.isRef T) (TypeInfoImpl.isPtr T) (TypeInfoImpl.isEditable T).
Proof. reflexivity. Qed.

(** C7 (violated by the code): for [const int&], a reference to const,
    getArgType sets the var flag.  The test written to tell the two
    kinds of reference apart, [isRef && !std::is_const<T>] in
    TypeInfoImpl, holds of it as well, because [std::is_const] of a
    reference type is false. *)
Theorem getArgType_var_on_const_reference :
  fst (getArgType (Ref (Obj true Tint)) Registry0) = 0x23
  /\ ArgIsVar (fst (getArgType (Ref (Obj true Tint)) Registry0)) = true
  /\ is_nonconst_reference (Ref (Obj true Tint)) = false
  /\ is_const (Ref (Obj true Tint)) = false
  /\ TypeInfoImpl.isOutput (Ref (Obj true Tint)) = true
  /\ ~ (forall T r, Registry_ok r ->
          fst (registeTypeImpl (TypeInfoImpl.t3 T) r) <> ArgInvalid ->
          ArgIsVar (fst (getArgType T r)) = is_nonconst_reference T).
Proof.
  repeat split; try reflexivity.
  intros H. specialize (H (Ref (Obj true Tint)) Registry0 Registry0_ok).
  vm_compute in H. specialize (H ltac:(discriminate)). discriminate H.
Qed.

Lemma not_const_reference (T : CType) :
  is_const_reference T = false -> is_reference T = is_nonconst_reference T.
Proof. destruct T as [c o|c u|u]; cbn; intros H; [reflexivity..|]. rewrite H. reflexivity. Qed.

(** Away from references to const, and for a valid registered base,
    getArgType sets the var flag exactly on the references to non-const
    and the ptr_editable flag exactly on the types that decay to a
    pointer to non-const. *)
Lemma getArgType_flags (T : CType) (r : Registry) :
  Registry_ok r ->
  fst (registeTypeImpl (TypeInfoImpl.t3 T) r) <> ArgInvalid ->
  is_const_reference T = false ->
  ArgIsVar (fst (getArgType T r)) = is_nonconst_reference T
  /\ ArgIsPtrE (fst (getArgType T r)) = is_pointer_to_nonconst T.
Proof.
  intros Hok Hvalid Hnc.
  pose proof (registeTypeImpl_ok (TypeInfoImpl.t3 T) r Hok) as [Hb _].
  unfold getArgType.
  destruct (registeTypeImpl (TypeInfoImpl.t3 T) r) as [b r'] eqn:E.
  cbn [fst] in *. rewrite argSpec_spec_of.
  destruct (ArgSpecAdd_flags b (TypeInfoImpl.isRef T) (TypeInfoImpl.isPtr T)
              (TypeInfoImpl.isEditable T) Hb Hvalid) as (Hv & He & _ & _).
  split.
  - rewrite Hv. unfold TypeInfoImpl.isRef. apply not_const_reference. exact Hnc.
  - rewrite He. apply isEditable_pointer_to_nonconst.
Qed.

Lemma getArgType_flags_witness :
  ArgIsVar (fst (getArgType (Ref (Ptr false (Obj true (Tclass 0 false 0)))) Registry0))
    = true
  /\ ArgIsPtrE (fst (getArgType (Ref (Ptr false (Obj true (Tclass 0 false 0)))) Registry0))
    = false.
Proof.
  apply (getArgType_flags (Ref (Ptr false (Obj true (Tclass 0 false 0)))) Registry0).
  - exact Registry0_ok.
  - vm_compute. discriminate.
  - reflexivity.
Defined.

(** *** ScriptValueData::getValue *)

Lemma take_memcpy (storage t : list Z) (n : nat) :
  length t = n -> take n (memcpy storage t n) = t.
Proof.
  intros H. unfold memcpy.
  rewrite take_app_le by (rewrite length_take; lia).
  rewrite take_take. rewrite Nat.min_id.
  apply take_ge. lia.
Qed.

(** C8: getValue throws "Invalid cast of value" exactly when the stored
    type tag differs from getArgType of the requested type; when the
    tags agree it returns the stored bytes read at that type; a value
    built from [t] at type [T] gives [t] back, whatever types are
    registered in between. *)
Theorem getValue_throws_iff_tag_differs
    (T : CType) (v : ScriptValueData) (r : Registry)
    (t storage : list Z) (Us : list CType) :
  length t = sizeof T ->
  (fst (getValue T v r) = inl InvalidCastOfValue <-> type v <> fst (getArgType T r))
  /\ (type v = fst (getArgType T r) ->
      fst (getValue T v r) = inr (take (sizeof T) (data v)))
  /\ fst (getValue T (fst (ScriptValueData_of T t storage r))
                   (getArgTypes Us (snd (ScriptValueData_of T t storage r))))
     = inr t.
Proof.
  intros Hlen. split; [|split].
  - unfold getValue, isValueType.
    destruct (getArgType T r) as [a r'] eqn:E. cbn [fst].
    destruct (type v =? a) eqn:Q; cbn.
    + apply Z.eqb_eq in Q. split; [discriminate | intros H; contradiction].
    + apply Z.eqb_neq in Q. split; [intros _; exact Q | reflexivity].
  - intros Heq. unfold getValue, isValueType.
    destruct (getArgType T r) as [a r'] eqn:E. cbn [fst] in Heq.
    rewrite Heq, Z.eqb_refl. reflexivity.
  - unfold ScriptValueData_of.
    pose proof (getArgType_stable T Us r) as Hst.
    destruct (getArgType T r) as [a r'] eqn:E. cbn [fst snd] in *.
    unfold getValue, isValueType. rewrite Hst. cbn [type data].
    rewrite Z.eqb_refl. cbn. f_equal. apply take_memcpy. exact Hlen.
Qed.

Lemma getValue_throws_iff_tag_differs_witness :
  fst (getValue (Obj false Tint)
         (fst (ScriptValueData_of (Obj false Tint) [7; 0; 0; 0]%Z
                 [1; 2; 3; 4; 5; 6; 7; 8]%Z Registry0))
         (getArgTypes [Ptr false (Obj false (Tclass 0 false 0))]
            (snd (ScriptValueData_of (Obj false Tint) [7; 0; 0; 0]%Z
                    [1; 2; 3; 4; 5; 6; 7; 8]%Z Registry0))))
  = inr [7; 0; 0; 0]%Z.
Proof.
  apply (getValue_throws_iff_tag_differs (Obj false Tint)
           (ScriptValueData_default []) Registry0 [7; 0; 0; 0]%Z
           [1; 2; 3; 4; 5; 6; 7; 8]%Z [Ptr false (Obj false (Tclass 0 false 0))]).
  reflexivity.
Defined.

(** *** The values the registry hands out *)

Lemma handed_out_next (k : nat) : ArgNext (handed_out k) = handed_out (S k).
Proof.
  unfold ArgNext, handed_out, to_Uint8, ArgSpecSize.
  rewrite Z.add_mod_idemp_l by lia. f_equal. lia.
Qed.

Lemma handed_out_small (k : nat) :
  (k < 12)%nat -> handed_out k = 64 + 16 * Z.of_nat k.
Proof.
  intros H. unfold handed_out, to_Uint8, ArgMax, ArgSpecSize.
  apply Z.mod_small. lia.
Qed.

Lemma registeTypeImpl_seq (T : CType) (r : Registry) :
  Registry_seq r -> Registry_seq (snd (registeTypeImpl T r)).
Proof.
  intros [Hs Hn]. rewrite registeTypeImpl_cases.
  destruct (builtin T) eqn:B; [split; assumption|].
  destruct (static_of T (statics r)) eqn:E; [split; assumption|].
  cbn [snd]. split; cbn [statics next_value statics_seq length].
  - repeat split; assumption.
  - rewrite Hn. apply handed_out_next.
Qed.

Lemma getArgType_seq (T : CType) (r : Registry) :
  Registry_seq r -> Registry_seq (snd (getArgType T r)).
Proof.
  intros H. unfold getArgType.
  pose proof (registeTypeImpl_seq (TypeInfoImpl.t3 T) r H) as H2.
  destruct (registeTypeImpl (TypeInfoImpl.t3 T) r); exact H2.
Qed.

Lemma getArgTypes_seq (Us : list CType) (r : Registry) :
  Registry_seq r -> Registry_seq (getArgTypes Us r).
Proof.
  revert r. induction Us as [|U Us IH]; intros r H; [exact H|].
  cbn. apply IH, getArgType_seq, H.
Qed.

Lemma Registry0_seq : Registry_seq Registry0.
Proof. split; [exact I | reflexivity]. Qed.

Lemma static_value (T : CType) (v : Z) (l : list (CType * Z)) :
  statics_seq l -> static_of T l = Some v ->
  exists j : nat, (j < length l)%nat /\ v = handed_out j /\ builtin T = None.
Proof.
  induction l as [|[X x] l IH]; cbn [statics_seq static_of length]; [discriminate|].
  intros (Hx & HB & _ & Hs) H. destruct (decide (X = T)) as [E|Hne].
  - injection H as <-. exists (length l). rewrite <- E.
    repeat split; [lia | assumption..].
  - destruct (IH Hs H) as (j & Hj & Hv & Hb). exists j. repeat split; [lia | assumption..].
Qed.

Lemma statics_distinct (T U : CType) (v w : Z) (l : list (CType * Z)) :
  statics_seq l -> (length l <= 12)%nat ->
  static_of T l = Some v -> static_of U l = Some w -> T <> U -> v <> w.
Proof.
  induction l as [|[X x] l IH]; cbn [statics_seq static_of length]; [discriminate|].
  intros (Hx & HB & HN & Hs) Hlen HT HU Hne.
  destruct (decide (X = T)) as [ET|HXT]; destruct (decide (X = U)) as [EU|HXU].
  - congruence.
  - injection HT as <-. destruct (static_value U w l Hs HU) as (j & Hj & -> & _).
    rewrite Hx, !handed_out_small by lia. lia.
  - injection HU as <-. destruct (static_value T v l Hs HT) as (j & Hj & -> & _).
    rewrite Hx, !handed_out_small by lia. lia.
  - apply IH; [assumption | lia | assumption..].
Qed.

Lemma builtin_values (T : CType) (v : Z) :
  builtin T = Some v -> v = ArgInt \/ v = ArgNull \/ v = ArgLabel.
Proof.
  unfold builtin. repeat (destruct (decide _)); intros [= <-]; auto.
Qed.

Lemma builtin_inj (T U : CType) (v : Z) :
  builtin T = Some v -> builtin U = Some v -> T = U.
Proof.
  unfold builtin.
  repeat (destruct (decide _)); intros [= <-]; try discriminate; intros _;
    congruence.
Qed.

(** X12: in a registry reached from the initial one, as long as at most
    twelve types have asked for a fresh value, every type that has a
    value has a valid flag-free one, and two different types have
    different values. *)
Theorem registry_distinct_values (Us : list CType) (T U : CType) (v w : Z) :
  (length (statics (getArgTypes Us Registry0)) <= 12)%nat ->
  known T v (getArgTypes Us Registry0) ->
  known U w (getArgTypes Us Registry0) ->
  T <> U ->
  v <> w /\ v <> ArgInvalid /\ is_base v.
Proof.
  intros Hlen HT HU Hne.
  destruct (getArgTypes_seq Us Registry0 Registry0_seq) as [Hs _].
  set (r := getArgTypes Us Registry0) in *.
  assert (Hval : forall X x, known X x r ->
            (x = ArgInt \/ x = ArgNull \/ x = ArgLabel) /\ builtin X = Some x
            \/ (exists j : nat, (j < 12)%nat /\ x = 64 + 16 * Z.of_nat j)
               /\ builtin X = None /\ static_of X (statics r) = Some x).
  { intros X x [HB | [HB HS]].
    - left. split; [apply (builtin_values X) |]; exact HB.
    - right. destruct (static_value X x _ Hs HS) as (j & Hj & -> & _).
      split; [|split; assumption]. exists j. split; [lia|].
      apply handed_out_small. lia. }
  destruct (Hval T v HT) as [[Hv HBT] | [(j & Hj & Hv) [HBT HST]]];
    destruct (Hval U w HU) as [[Hw HBU] | [(k & Hk & Hw) [HBU HSU]]].
  - split.
    + intros E. subst w. apply Hne. apply (builtin_inj T U v); assumption.
    + unfold is_base, is_Uint8.
      destruct Hv as [-> | [-> | ->]]; split; try discriminate;
        (split; [unfold ArgInt, ArgNull, ArgLabel, ArgSpecSize; lia | reflexivity]).
  - split.
    + unfold ArgInt, ArgNull, ArgLabel, ArgSpecSize in Hv. lia.
    + unfold is_base, is_Uint8.
      destruct Hv as [-> | [-> | ->]]; split; try discriminate;
        (split; [unfold ArgInt, ArgNull, ArgLabel, ArgSpecSize; lia | reflexivity]).
  - split.
    + unfold ArgInt, ArgNull, ArgLabel, ArgSpecSize in Hw. lia.
    + split; [unfold ArgInvalid, ArgSpecSize; lia|].
      destruct (static_value T v _ Hs HST) as (j' & Hj' & Hv' & _).
      rewrite Hv'. split.
      * unfold is_Uint8, handed_out, to_Uint8. apply Z.mod_pos_bound. lia.
      * rewrite handed_out_small by lia.
        assert (Hc : forall n : nat, (n < 12)%nat ->
                  ArgBase (64 + 16 * Z.of_nat n) = 64 + 16 * Z.of_nat n).
        { intros n Hn. do 12 (destruct n as [|n]; [reflexivity|]). lia. }
        apply Hc. lia.
  - split; [apply (statics_distinct T U v w (statics r)); assumption|].
    split; [unfold ArgInvalid, ArgSpecSize; lia|].
    destruct (static_value T v _ Hs HST) as (j' & Hj' & Hv' & _).
    rewrite Hv'. split.
    + unfold is_Uint8, handed_out, to_Uint8. apply Z.mod_pos_bound. lia.
    + rewrite handed_out_small by lia.
      assert (Hc : forall n : nat, (n < 12)%nat ->
                ArgBase (64 + 16 * Z.of_nat n) = 64 + 16 * Z.of_nat n).
      { intros n Hn. do 12 (destruct n as [|n]; [reflexivity|]). lia. }
      apply Hc. lia.
Qed.

Lemma registry_distinct_values_witness :
  64 <> ArgInt /\ 64 <> ArgInvalid /\ is_base 64.
Proof.
  apply (registry_distinct_values [Ptr false (Obj false (Tclass 0 false 0))]
           (Obj false (Tclass 0 false 0)) (Obj false Tint) 64 ArgInt).
  - vm_compute. lia.
  - right. split; reflexivity.
  - left. reflexivity.
  - discriminate.
Defined.

Lemma getArgTypes_ok (Us : list CType) (r : Registry) :
  Registry_ok r -> Registry_ok (getArgTypes Us r).
Proof.
  revert r. induction Us as [|U Us IH]; intros r H; [exact H|].
  cbn. apply IH, getArgType_ok, H.
Qed.

Lemma getArgType_fst (T : CType) (r : Registry) :
  fst (getArgType T r)
  = ArgSpecAdd (fst (registeTypeImpl (TypeInfoImpl.t3 T) r)) (argSpec T).
Proof.
  unfold getArgType. destruct (registeTypeImpl (TypeInfoImpl.t3 T) r); reflexivity.
Qed.

Lemma getArgType_snd (T : CType) (r : Registry) :
  snd (getArgType T r) = snd (registeTypeImpl (TypeInfoImpl.t3 T) r).
Proof.
  unfold getArgType. destruct (registeTypeImpl (TypeInfoImpl.t3 T) r); reflexivity.
Qed.

Lemma getArgType_base (T : CType) (r : Registry) :
  Registry_ok r ->
  ArgBase (fst (getArgType T r)) = fst (registeTypeImpl (TypeInfoImpl.t3 T) r).
Proof.
  intros Hok. rewrite getArgType_fst, argSpec_spec_of.
  pose proof (registeTypeImpl_ok (TypeInfoImpl.t3 T) r Hok) as [Hb _].
  set (b := fst (registeTypeImpl (TypeInfoImpl.t3 T) r)) in *.
  destruct (Z.eq_dec b ArgInvalid) as [E|E].
  - rewrite E. reflexivity.
  - apply (ArgSpecAdd_flags b _ _ _ Hb E).
Qed.

(** X13: when twelve types have taken a fresh value, the next type
    that asks is handed the invalid kind, whatever its qualifiers, so a
    default-constructed value read at that type is not refused and
    yields the bytes its storage happens to hold; the type after that
    is handed the base of [nullptr_t]. *)
Theorem registry_exhaustion (Us : list CType) (T U : CType) (storage : list Z) :
  length (statics (getArgTypes Us Registry0)) = 12%nat ->
  builtin (TypeInfoImpl.t3 T) = None ->
  static_of (TypeInfoImpl.t3 T) (statics (getArgTypes Us Registry0)) = None ->
  builtin (TypeInfoImpl.t3 U) = None ->
  TypeInfoImpl.t3 U <> TypeInfoImpl.t3 T ->
  static_of (TypeInfoImpl.t3 U) (statics (getArgTypes Us Registry0)) = None ->
  fst (getArgType T (getArgTypes Us Registry0)) = ArgInvalid
  /\ fst (getValue T (ScriptValueData_default storage) (getArgTypes Us Registry0))
     = inr (take (sizeof T) storage)
  /\ ArgBase (fst (getArgType U (snd (getArgType T (getArgTypes Us Registry0)))))
     = ArgNull.
Proof.
  intros Hlen HBT HST HBU Hne HSU.
  destruct (getArgTypes_seq Us Registry0 Registry0_seq) as [Hs Hn].
  pose proof (getArgTypes_ok Us Registry0 Registry0_ok) as Hok.
  set (r := getArgTypes Us Registry0) in *.
  assert (Hreg : registeTypeImpl (TypeInfoImpl.t3 T) r
                 = (ArgInvalid,
                    mkRegistry ArgNull ((TypeInfoImpl.t3 T, ArgInvalid) :: statics r))).
  { rewrite registeTypeImpl_cases, HBT, HST, Hn, Hlen. reflexivity. }
  assert (HT : fst (getArgType T r) = ArgInvalid).
  { rewrite getArgType_fst, Hreg. reflexivity. }
  split; [exact HT|]. split.
  - unfold getValue, isValueType.
    destruct (getArgType T r) as [a r'] eqn:E. cbn [fst] in HT. subst a.
    reflexivity.
  - rewrite getArgType_base by (apply getArgType_ok; exact Hok).
    rewrite getArgType_snd, Hreg. cbn [snd].
    rewrite registeTypeImpl_cases, HBU. cbn [statics static_of].
    destruct (decide (TypeInfoImpl.t3 T = TypeInfoImpl.t3 U)) as [E|_];
      [symmetry in E; contradiction|].
    rewrite HSU. reflexivity.
Qed.

Lemma registry_exhaustion_witness :
  fst (getArgType (Ptr false (Obj false (Tclass 12 false 0)))
         (getArgTypes (classes 12) Registry0)) = ArgInvalid.
Proof.
  apply (registry_exhaustion (classes 12) (Ptr false (Obj false (Tclass 12 false 0)))
           (Ptr false (Obj false (Tclass 13 false 0))) []).
  - vm_compute. reflexivity.
  - reflexivity.
  - vm_compute. reflexivity.
  - reflexivity.
  - discriminate.
  - vm_compute. reflexivity.
Defined.

(** X14: the base of the kind of T is the registry value of T stripped
    of reference, pointer and qualifiers, so a type, its const version,
    the pointers to it and the references to these all share one base. *)
Theorem getArgType_shared_base (T U : CType) (r : Registry) :
  Registry_ok r ->
  TypeInfoImpl.t3 T = TypeInfoImpl.t3 U ->
  ArgBase (fst (getArgType T r)) = fst (registeTypeImpl (TypeInfoImpl.t3 T) r)
  /\ ArgBase (fst (getArgType T r)) = ArgBase (fst (getArgType U r))
  /\ (forall (o : Object) (c c' : bool),
        TypeInfoImpl.t3 (Obj c o) = Obj false o
        /\ TypeInfoImpl.t3 (Ptr c (Obj c' o)) = Obj false o
        /\ TypeInfoImpl.t3 (Ref (Obj c o)) = Obj false o
        /\ TypeInfoImpl.t3 (Ref (Ptr c (Obj c' o))) = Obj false o).
Proof.
  intros Hok E. split; [apply getArgType_base; exact Hok|]. split.
  - rewrite !getArgType_base by exact Hok. rewrite E. reflexivity.
  - intros o c c'. repeat split.
Qed.

Lemma getArgType_shared_base_witness :
  ArgBase (fst (getArgType (Ptr false (Obj true (Tclass 3 false 0))) Registry0))
  = ArgBase (fst (getArgType (Ref (Obj false (Tclass 3 false 0))) Registry0)).
Proof.
  apply (getArgType_shared_base (Ptr false (Obj true (Tclass 3 false 0)))
           (Ref (Obj false (Tclass 3 false 0))) Registry0).
  - exact Registry0_ok.
  - reflexivity.
Defined.

Lemma getArgType_again (T U : CType) (r : Registry) :
  TypeInfoImpl.t3 U = TypeInfoImpl.t3 T ->
  fst (getArgType U (snd (getArgType T r)))
  = ArgSpecAdd (fst (registeTypeImpl (TypeInfoImpl.t3 T) r)) (argSpec U).
Proof.
  intros E. rewrite getArgType_fst, E.
  rewrite (known_registeTypeImpl _ _ _ (getArgType_known T r)). reflexivity.
Qed.

(** X15: constness of the pointee is part of the tag.  With a valid
    base, a value built from a pointer to non-const is refused when read
    as pointer to const of the same type, and a value built from a
    pointer to const is refused when read as pointer to non-const. *)
Theorem getValue_constness (o : Object) (t storage : list Z) (r : Registry) :
  Registry_ok r ->
  fst (registeTypeImpl (Obj false o) r) <> ArgInvalid ->
  fst (getValue (Ptr false (Obj true o))
         (fst (ScriptValueData_of (Ptr false (Obj false o)) t storage r))
         (snd (ScriptValueData_of (Ptr false (Obj false o)) t storage r)))
  = inl InvalidCastOfValue
  /\ fst (getValue (Ptr false (Obj false o))
            (fst (ScriptValueData_of (Ptr false (Obj true o)) t storage r))
            (snd (ScriptValueData_of (Ptr false (Obj true o)) t storage r)))
     = inl InvalidCastOfValue.
Proof.
  intros Hok Hvalid.
  pose proof (registeTypeImpl_ok (Obj false o) r Hok) as [Hb _].
  set (b := fst (registeTypeImpl (Obj false o) r)) in *.
  assert (Hdiff : ArgSpecAdd b (argSpec (Ptr false (Obj false o)))
                  <> ArgSpecAdd b (argSpec (Ptr false (Obj true o)))).
  { intros E. apply (f_equal ArgIsPtrE) in E.
    rewrite !argSpec_spec_of in E.
    destruct (ArgSpecAdd_flags b (TypeInfoImpl.isRef (Ptr false (Obj false o)))
                (TypeInfoImpl.isPtr (Ptr false (Obj false o)))
                (TypeInfoImpl.isEditable (Ptr false (Obj false o))) Hb Hvalid)
      as (_ & He1 & _).
    destruct (ArgSpecAdd_flags b (TypeInfoImpl.isRef (Ptr false (Obj true o)))
                (TypeInfoImpl.isPtr (Ptr false (Obj true o)))
                (TypeInfoImpl.isEditable (Ptr false (Obj true o))) Hb Hvalid)
      as (_ & He2 & _).
    rewrite He1, He2 in E. discriminate E. }
  assert (Hthrow : forall T U,
            TypeInfoImpl.t3 T = Obj false o -> TypeInfoImpl.t3 U = Obj false o ->
            ArgSpecAdd b (argSpec T) <> ArgSpecAdd b (argSpec U) ->
            fst (getValue U (fst (ScriptValueData_of T t storage r))
                   (snd (ScriptValueData_of T t storage r)))
            = inl InvalidCastOfValue).
  { intros T U ET EU Hne.
    pose proof (getArgType_again T U r ltac:(congruence)) as Hu.
    pose proof (getArgType_fst T r) as Ht. rewrite ET in Hu, Ht. fold b in Hu, Ht.
    unfold ScriptValueData_of. destruct (getArgType T r) as [a r1] eqn:E1.
    cbn [fst snd] in *. unfold getValue, isValueType.
    destruct (getArgType U r1) as [a' r2] eqn:E2. cbn [fst] in Hu. cbn [type].
    replace (a =? a') with false by (symmetry; apply Z.eqb_neq; congruence).
    reflexivity. }
  split; apply Hthrow; try reflexivity; [exact Hdiff | intros E; apply Hdiff; auto].
Qed.

Lemma getValue_constness_witness :
  fst (getValue (Ptr false (Obj true (Tclass 0 false 0)))
         (fst (ScriptValueData_of (Ptr false (Obj false (Tclass 0 false 0)))
                 [1; 2; 3; 4; 5; 6; 7; 8] [0; 0; 0; 0; 0; 0; 0; 0] Registry0))
         (snd (ScriptValueData_of (Ptr false (Obj false (Tclass 0 false 0)))
                 [1; 2; 3; 4; 5; 6; 7; 8] [0; 0; 0; 0; 0; 0; 0; 0] Registry0)))
  = inl InvalidCastOfValue.
Proof.
  apply (getValue_constness (Tclass 0 false 0) [1; 2; 3; 4; 5; 6; 7; 8]
           [0; 0; 0; 0; 0; 0; 0; 0] Registry0).
  - exact Registry0_ok.
  - vm_compute. discriminate.
Defined.

End ParserFacts.


(** ** ScriptRef *)
Module RefFacts.
Import Ref.
Local Open Scope Z_scope.

Lemma size_valid (r : ScriptRef) : valid r -> size r = _end r - _begin r.
Proof. intros (H0 & H1 & H2). unfold size. apply to_size_t_small. lia. Qed.

Lemma size_range (r : ScriptRef) : 0 <= size r < 2 ^ 64.
Proof. unfold size, to_size_t. apply Z.mod_pos_bound. lia. Qed.

(** *** memcmp *)

Lemma memcmp_zero (m : Memory) (n : nat) (p q : Z) :
  memcmp m p q n = 0 <->
  forall i : nat, (i < n)%nat -> m (p + Z.of_nat i) = m (q + Z.of_nat i).
Proof.
  revert p q. induction n as [|k IH]; intros p q; cbn [memcmp].
  - split; [intros _ i Hi; lia | reflexivity].
  - destruct (m p =? m q) eqn:E.
    + apply Z.eqb_eq in E. rewrite IH. split.
      * intros H [|i] Hi.
        -- rewrite !Z.add_0_r. exact E.
        -- specialize (H i ltac:(lia)).
           replace (p + Z.of_nat (S i)) with (p + 1 + Z.of_nat i) by lia.
           replace (q + Z.of_nat (S i)) with (q + 1 + Z.of_nat i) by lia.
           exact H.
      * intros H i Hi. specialize (H (S i) ltac:(lia)).
        replace (p + Z.of_nat (S i)) with (p + 1 + Z.of_nat i) in H by lia.
        replace (q + Z.of_nat (S i)) with (q + 1 + Z.of_nat i) in H by lia.
        exact H.
    + apply Z.eqb_neq in E. split.
      * intros H. lia.
      * intros H. specialize (H O ltac:(lia)). rewrite !Z.add_0_r in H. contradiction.
Qed.

Lemma memcmp_negative (m : Memory) (n : nat) (p q : Z) :
  memcmp m p q n < 0 <-> bytes_less m p q n.
Proof.
  revert p q. induction n as [|k IH]; intros p q; cbn [memcmp].
  - split; [lia | intros (j & Hj & _); lia].
  - destruct (m p =? m q) eqn:E.
    + apply Z.eqb_eq in E. rewrite IH. split.
      * intros (j & Hj & Hpre & Hlt). exists (S j). split; [lia|]. split.
        -- intros [|i] Hi.
           ++ rewrite !Z.add_0_r. exact E.
           ++ specialize (Hpre i ltac:(lia)).
              replace (p + Z.of_nat (S i)) with (p + 1 + Z.of_nat i) by lia.
              replace (q + Z.of_nat (S i)) with (q + 1 + Z.of_nat i) by lia.
              exact Hpre.
        -- replace (p + Z.of_nat (S j)) with (p + 1 + Z.of_nat j) by lia.
           replace (q + Z.of_nat (S j)) with (q + 1 + Z.of_nat j) by lia.
           exact Hlt.
      * intros ([|j] & Hj & Hpre & Hlt).
        -- rewrite !Z.add_0_r in Hlt. lia.
        -- exists j. split; [lia|]. split.
           ++ intros i Hi. specialize (Hpre (S i) ltac:(lia)).
              replace (p + Z.of_nat (S i)) with (p + 1 + Z.of_nat i) in Hpre by lia.
              replace (q + Z.of_nat (S i)) with (q + 1 + Z.of_nat i) in Hpre by lia.
              exact Hpre.
           ++ replace (p + Z.of_nat (S j)) with (p + 1 + Z.of_nat j) in Hlt by lia.
              replace (q + Z.of_nat (S j)) with (q + 1 + Z.of_nat j) in Hlt by lia.
              exact Hlt.
    + apply Z.eqb_neq in E. split.
      * intros H. exists O. split; [lia|]. split; [intros i Hi; lia|].
        rewrite !Z.add_0_r. lia.
      * intros ([|j] & Hj & Hpre & Hlt).
        -- rewrite !Z.add_0_r in Hlt. lia.
        -- specialize (Hpre O ltac:(lia)). rewrite !Z.add_0_r in Hpre. contradiction.
Qed.

Lemma nth_map_seq {A} (f : nat -> A) (n i : nat) (d : A) :
  (i < n)%nat -> nth i (map f (seq 0 n)) d = f i.
Proof.
  intros Hi.
  rewrite (nth_indep _ d (f O)) by (rewrite length_map, length_seq; exact Hi).
  rewrite map_nth, seq_nth by exact Hi. reflexivity.
Qed.

Lemma chars_eq (m : Memory) (a b : ScriptRef) :
  chars m a = chars m b <->
  size a = size b
  /\ forall i : nat, (i < Z.to_nat (size a))%nat ->
       m (_begin a + Z.of_nat i) = m (_begin b + Z.of_nat i).
Proof.
  unfold chars. split.
  - intros H.
    assert (Hl : Z.to_nat (size a) = Z.to_nat (size b)).
    { apply (f_equal (@length Z)) in H.
      rewrite !length_map, !length_seq in H. exact H. }
    split.
    + pose proof (size_range a). pose proof (size_range b). lia.
    + intros i Hi.
      apply (f_equal (fun l => nth i l 0)) in H.
      rewrite !nth_map_seq in H by lia. exact H.
  - intros [Hs H]. rewrite <- Hs.
    apply map_ext_in. intros i Hi. apply in_seq in Hi. apply H. lia.
Qed.

(** C9: comparison orders by length before content.  For two valid
    ranges, whose lengths are their extents [_end - _begin]: [a == b]
    holds exactly when the ranges have the same length and identical
    bytes; [a < b] holds exactly when [a] is shorter, or the lengths are
    equal and memcmp on the bytes is negative, that is [a]'s bytes are
    lexicographically less; so a shorter range is less than, and not
    equal to, every longer one whatever the contents. *)
Theorem ScriptRef_compare_length_first (m : Memory) (a b : ScriptRef) :
  valid a -> valid b ->
  size a = _end a - _begin a
  /\ size b = _end b - _begin b
  /\ chars m a
     = map (fun i => m (_begin a + Z.of_nat i))
           (seq 0 (Z.to_nat (_end a - _begin a)))
  /\ (op_eq m a b = true <->
        _end a - _begin a = _end b - _begin b
        /\ forall i : nat, Z.of_nat i < _end a - _begin a ->
             m (_begin a + Z.of_nat i) = m (_begin b + Z.of_nat i))
  /\ (op_eq m a b = true <-> chars m a = chars m b)
  /\ (op_lt m a b = true <->
        _end a - _begin a < _end b - _begin b
        \/ (_end a - _begin a = _end b - _begin b
            /\ memcmp m (_begin a) (_begin b) (Z.to_nat (_end a - _begin a)) < 0))
  /\ (op_lt m a b = true <->
        _end a - _begin a < _end b - _begin b
        \/ (_end a - _begin a = _end b - _begin b
            /\ bytes_less m (_begin a) (_begin b) (Z.to_nat (_end a - _begin a))))
  /\ (_end a - _begin a < _end b - _begin b ->
      op_lt m a b = true /\ op_eq m a b = false /\ op_lt m b a = false)
  /\ op_ne m a b = negb (op_eq m a b).
Proof.
  intros Hva Hvb.
  pose proof (size_valid a Hva) as Ha. pose proof (size_valid b Hvb) as Hb.
  assert (Heq : forall x y : ScriptRef, op_eq m x y = true <->
     size x = size y
     /\ forall i : nat, (i < Z.to_nat (size x))%nat ->
          m (_begin x + Z.of_nat i) = m (_begin y + Z.of_nat i)).
  { intros x y. unfold op_eq, compare. rewrite Z.eqb_eq.
    destruct (size x =? size y) eqn:E.
    - apply Z.eqb_eq in E. rewrite memcmp_zero. tauto.
    - apply Z.eqb_neq in E. destruct (size x <? size y); split; intros H; try lia;
        destruct H as [H _]; contradiction. }
  assert (Hlt : forall x y : ScriptRef, op_lt m x y = true <->
        size x < size y
        \/ (size x = size y
            /\ memcmp m (_begin x) (_begin y) (Z.to_nat (size x)) < 0)).
  { intros x y. unfold op_lt, compare. rewrite Z.ltb_lt.
    destruct (size x =? size y) eqn:E.
    - apply Z.eqb_eq in E. split; [intros H; right; split; assumption|].
      intros [H | [_ H]]; [lia | exact H].
    - apply Z.eqb_neq in E. destruct (size x <? size y) eqn:L.
      + apply Z.ltb_lt in L. split; [intros _; left; exact L | lia].
      + apply Z.ltb_ge in L. split; [lia|]. intros [H | [H _]]; [lia | contradiction]. }
  split; [exact Ha|]. split; [exact Hb|].
  split; [unfold chars; rewrite Ha; reflexivity|].
  split.
  { rewrite (Heq a b), Ha, Hb. split; intros [E H]; (split; [exact E|]);
      intros i Hi; apply H; lia. }
  split; [rewrite chars_eq; apply Heq|].
  split; [rewrite (Hlt a b), Ha, Hb; reflexivity|].
  split; [rewrite (Hlt a b), memcmp_negative, Ha, Hb; reflexivity|].
  split; [|reflexivity].
  intros Hshort. split; [apply (Hlt a b); left; lia|]. split.
  - destruct (op_eq m a b) eqn:E; [|reflexivity].
    apply Heq in E. destruct E as [E _]. lia.
  - destruct (op_lt m b a) eqn:E; [|reflexivity].
    apply Hlt in E. lia.
Qed.

Lemma ScriptRef_compare_length_first_witness :
  op_lt (fun x => x mod 5) (mkRef 1000 1002) (mkRef 2000 2005) = true.
Proof.
  destruct (ScriptRef_compare_length_first (fun x => x mod 5)
              (mkRef 1000 1002) (mkRef 2000 2005))
    as (_ & _ & _ & _ & _ & _ & _ & H & _).
  - unfold valid; cbn; lia.
  - unfold valid; cbn; lia.
  - apply H. cbn. lia.
Defined.

(** *** substr *)

Lemma map_seq_shift {A} (f : nat -> A) (p n : nat) :
  map f (seq p n) = map (fun i => f (p + i)%nat) (seq 0 n).
Proof.
  revert f p. induction n as [|n IH]; intros f p; [reflexivity|].
  cbn [seq map]. rewrite Nat.add_0_r. f_equal.
  rewrite (IH f (S p)), (IH (fun i => f (p + i)%nat) 1%nat).
  apply map_ext. intros i. f_equal. lia.
Qed.

Lemma chars_mkRef (m : Memory) (b e : Z) :
  0 <= b <= e -> e < 2 ^ 64 ->
  chars m (mkRef b e) = map (fun i => m (b + Z.of_nat i)) (seq 0 (Z.to_nat (e - b))).
Proof.
  intros H1 H2. unfold chars, size. cbn [_begin _end].
  rewrite to_size_t_small by lia. reflexivity.
Qed.

(** C10: substr is a total function that stays in bounds.  For a valid
    range of size n and [size_t] indices p and s: when p >= n the result
    is the empty default range; otherwise it starts p bytes into r, has
    length min(s, n - p) and holds the corresponding characters of r;
    in both cases every address of the result is an address of r. *)
Theorem substr_in_bounds (r : ScriptRef) (p s : Z) :
  valid r -> is_size_t p -> is_size_t s ->
  (size r <= p -> substr r p s = ScriptRef_default)
  /\ (p < size r ->
      _begin (substr r p s) = _begin r + p
      /\ size (substr r p s) = Z.min s (size r - p)
      /\ valid (substr r p s)
      /\ _begin r <= _begin (substr r p s)
      /\ _end (substr r p s) <= _end r
      /\ forall m : Memory,
           chars m (substr r p s)
           = take (Z.to_nat (Z.min s (size r - p))) (drop (Z.to_nat p) (chars m r)))
  /\ (forall x, _begin (substr r p s) <= x < _end (substr r p s) ->
                _begin r <= x < _end r).
Proof.
  intros Hv Hp Hs. pose proof (size_valid r Hv) as Hsz.
  destruct Hv as (Hb0 & Hbe & He). unfold is_size_t in Hp, Hs.
  assert (Hdef : size r <= p -> substr r p s = ScriptRef_default).
  { intros H. unfold substr. fold (size r).
    destruct (p >=? size r) eqn:E; [reflexivity | lia]. }
  assert (Hin : p < size r ->
      substr r p s = mkRef (_begin r + p) (_begin r + p + Z.min s (size r - p))).
  { intros H. unfold substr. fold (size r).
    destruct (p >=? size r) eqn:E; [lia|].
    rewrite to_size_t_small by lia.
    destruct (s >? size r - p) eqn:G.
    - f_equal. lia.
    - f_equal. lia. }
  split; [exact Hdef|]. split.
  - intros H. rewrite (Hin H). cbn [_begin _end].
    assert (Hmin : 0 <= Z.min s (size r - p) <= size r - p) by lia.
    split; [reflexivity|]. split.
    { rewrite (size_valid (mkRef _ _)) by (unfold valid; cbn [_begin _end]; lia).
      cbn [_begin _end]. lia. }
    split; [unfold valid; cbn [_begin _end]; lia|].
    split; [lia|]. split; [lia|].
    intros m. rewrite chars_mkRef by lia.
    unfold chars. rewrite skipn_map, firstn_map, skipn_seq, take_seq.
    replace (_begin r + p + Z.min s (size r - p) - (_begin r + p))
      with (Z.min s (size r - p)) by lia.
    replace (Init.Nat.min (Z.to_nat (Z.min s (size r - p)))
               (Z.to_nat (size r) - Z.to_nat p))
      with (Z.to_nat (Z.min s (size r - p))) by lia.
    rewrite (map_seq_shift _ (0 + Z.to_nat p)).
    apply map_ext. intros i. f_equal. lia.
  - intros x Hx. destruct (Z_lt_le_dec p (size r)) as [H|H].
    + rewrite (Hin H) in Hx. cbn [_begin _end] in Hx. lia.
    + rewrite (Hdef H) in Hx. cbn in Hx. unfold nullptr in Hx. lia.
Qed.

Lemma substr_in_bounds_witness :
  (size (mkRef 1000 1010) <= 3 -> substr (mkRef 1000 1010) 3 npos = ScriptRef_default)
  /\ (3 < size (mkRef 1000 1010) ->
      _begin (substr (mkRef 1000 1010) 3 npos) = 1000 + 3
      /\ size (substr (mkRef 1000 1010) 3 npos)
         = Z.min npos (size (mkRef 1000 1010) - 3)
      /\ valid (substr (mkRef 1000 1010) 3 npos)
      /\ 1000 <= _begin (substr (mkRef 1000 1010) 3 npos)
      /\ _end (substr (mkRef 1000 1010) 3 npos) <= 1010
      /\ forall m : Memory,
           chars m (substr (mkRef 1000 1010) 3 npos)
           = take (Z.to_nat (Z.min npos (size (mkRef 1000 1010) - 3)))
                  (drop (Z.to_nat 3) (chars m (mkRef 1000 1010))))
  /\ (forall x, _begin (substr (mkRef 1000 1010) 3 npos) <= x
                < _end (substr (mkRef 1000 1010) 3 npos) ->
                1000 <= x < 1010).
Proof.
  apply (substr_in_bounds (mkRef 1000 1010) 3 npos).
  - unfold valid; cbn; lia.
  - unfold is_size_t; lia.
  - unfold is_size_t, npos; lia.
Defined.

(** *** find *)

Lemma find_loop_spec (m : Memory) (c first : Z) (n : nat) (off : Z) :
  0 <= off -> off + Z.of_nat n < 2 ^ 64 ->
  (find_loop m c first (first + off) n = npos
   /\ forall i : nat, (i < n)%nat -> m (first + off + Z.of_nat i) <> c)
  \/ (off <= find_loop m c first (first + off) n < off + Z.of_nat n
      /\ m (first + find_loop m c first (first + off) n) = c
      /\ forall x, off <= x < find_loop m c first (first + off) n -> m (first + x) <> c).
Proof.
  revert off. induction n as [|k IH]; intros off Hoff Hfit.
  - left. split; [reflexivity | intros i Hi; lia].
  - cbn [find_loop]. destruct (m (first + off) =? c) eqn:E.
    + right. apply Z.eqb_eq in E.
      replace (first + off - first) with off by lia.
      rewrite to_size_t_small by lia.
      split; [lia|]. split; [exact E | intros x Hx; lia].
    + apply Z.eqb_neq in E.
      replace (first + off + 1) with (first + (off + 1)) by lia.
      destruct (IH (off + 1) ltac:(lia) ltac:(lia)) as [[Hn Hall] | (Hr & Hm & Hpre)].
      * left. split; [exact Hn|]. intros [|i] Hi.
        -- rewrite Z.add_0_r. exact E.
        -- specialize (Hall i ltac:(lia)).
           replace (first + off + Z.of_nat (S i)) with (first + (off + 1) + Z.of_nat i)
             by lia. exact Hall.
      * right. split; [lia|]. split; [exact Hm|].
        intros x Hx. destruct (Z.eq_dec x off) as [->|Hne]; [exact E|].
        apply Hpre. lia.
Qed.

(** X7: on a valid range, find returns [npos] exactly when the
    character does not occur; otherwise it returns the index of the
    first occurrence, an index inside the range. *)
Theorem find_first_occurrence (m : Memory) (r : ScriptRef) (c : Z) :
  valid r ->
  (find m r c = npos <->
     forall i : nat, (i < Z.to_nat (size r))%nat -> m (_begin r + Z.of_nat i) <> c)
  /\ (find m r c <> npos ->
      0 <= find m r c < size r
      /\ m (_begin r + find m r c) = c
      /\ forall x, 0 <= x < find m r c -> m (_begin r + x) <> c).
Proof.
  intros Hv. pose proof (size_range r) as Hs.
  unfold find.
  pose proof (find_loop_spec m c (_begin r) (Z.to_nat (size r)) 0 ltac:(lia)
                ltac:(lia)) as H.
  rewrite Z.add_0_r in H.
  set (res := find_loop m c (_begin r) (_begin r) (Z.to_nat (size r))) in *.
  destruct H as [[Hn Hall] | (Hr & Hm & Hpre)].
  - split.
    + split; [intros _ i Hi|intros _; exact Hn].
      exact (Hall i Hi).
    + intros Hne. contradiction.
  - assert (Hne : res <> npos) by (unfold npos; lia).
    split.
    + split; [intros E; contradiction|].
      intros Hall. exfalso. apply (Hall (Z.to_nat res)); [lia|].
      rewrite Z2Nat.id by lia. exact Hm.
    + intros _. split; [lia|]. split; [exact Hm | exact Hpre].
Qed.

Lemma find_first_occurrence_witness :
  0 <= find (fun a => a - 1000) (mkRef 1000 1010) 4 < size (mkRef 1000 1010).
Proof.
  destruct (find_first_occurrence (fun a => a - 1000) (mkRef 1000 1010) 4) as [_ H].
  - unfold valid; cbn; lia.
  - destruct H as [H _]; [vm_compute; discriminate | exact H].
Defined.

(** *** The order *)

Lemma memcmp_swap (m : Memory) (n : nat) (p q : Z) :
  memcmp m q p n = - memcmp m p q n.
Proof.
  revert p q. induction n as [|k IH]; intros p q; cbn [memcmp]; [reflexivity|].
  rewrite (Z.eqb_sym (m q) (m p)).
  destruct (m p =? m q); [apply IH | lia].
Qed.

Lemma compare_swap (m : Memory) (a b : ScriptRef) :
  compare m b a = - compare m a b.
Proof.
  unfold compare. rewrite (Z.eqb_sym (size b) (size a)).
  destruct (size a =? size b) eqn:E.
  - apply Z.eqb_eq in E. rewrite <- E. apply memcmp_swap.
  - apply Z.eqb_neq in E.
    destruct (size b <? size a) eqn:L1; destruct (size a <? size b) eqn:L2;
      try reflexivity;
      [apply Z.ltb_lt in L1; apply Z.ltb_lt in L2 | apply Z.ltb_ge in L1; apply Z.ltb_ge in L2];
      lia.
Qed.

Lemma op_lt_iff (m : Memory) (a b : ScriptRef) :
  op_lt m a b = true <->
  size a < size b
  \/ (size a = size b /\ bytes_less m (_begin a) (_begin b) (Z.to_nat (size a))).
Proof.
  unfold op_lt, compare. rewrite Z.ltb_lt.
  destruct (size a =? size b) eqn:E.
  - apply Z.eqb_eq in E. rewrite memcmp_negative. split; [intros H; right; tauto|].
    intros [H | [_ H]]; [lia | exact H].
  - apply Z.eqb_neq in E. destruct (size a <? size b) eqn:L.
    + apply Z.ltb_lt in L. split; [intros _; left; exact L | lia].
    + apply Z.ltb_ge in L. split; [lia|]. intros [H | [H _]]; [lia | contradiction].
Qed.

Lemma op_eq_iff (m : Memory) (a b : ScriptRef) :
  op_eq m a b = true <->
  size a = size b
  /\ forall i : nat, (i < Z.to_nat (size a))%nat ->
       m (_begin a + Z.of_nat i) = m (_begin b + Z.of_nat i).
Proof.
  unfold op_eq, compare. rewrite Z.eqb_eq.
  destruct (size a =? size b) eqn:E.
  - apply Z.eqb_eq in E. rewrite memcmp_zero. tauto.
  - apply Z.eqb_neq in E. destruct (size a <? size b); split; intros H; try lia;
      destruct H as [H _]; contradiction.
Qed.

Lemma bytes_less_trans (m : Memory) (p q r : Z) (n : nat) :
  bytes_less m p q n -> bytes_less m q r n -> bytes_less m p r n.
Proof.
  intros (k1 & Hk1 & Hpre1 & Hlt1) (k2 & Hk2 & Hpre2 & Hlt2).
  destruct (Nat.lt_total k1 k2) as [Hlt | [-> | Hgt]].
  - exists k1. split; [exact Hk1|]. split.
    + intros i Hi. rewrite (Hpre1 i Hi). apply Hpre2. lia.
    + rewrite <- (Hpre2 k1 Hlt). exact Hlt1.
  - exists k2. split; [exact Hk2|]. split.
    + intros i Hi. rewrite (Hpre1 i Hi). apply Hpre2. exact Hi.
    + lia.
  - exists k2. split; [exact Hk2|]. split.
    + intros i Hi. rewrite (Hpre1 i ltac:(lia)). apply Hpre2. exact Hi.
    + rewrite (Hpre1 k2 Hgt). exact Hlt2.
Qed.

(** X8: the operators order the ranges strictly and totally.  Swapping
    the operands of compare negates the result; [<] is irreflexive and
    transitive; [==] is reflexive and transitive; for any two ranges
    exactly one of [a < b], [a == b], [b < a] holds. *)
Theorem ScriptRef_strict_total_order (m : Memory) (a b c : ScriptRef) :
  compare m b a = - compare m a b
  /\ op_lt m a a = false
  /\ op_eq m a a = true
  /\ (op_lt m a b = true -> op_lt m b c = true -> op_lt m a c = true)
  /\ (op_eq m a b = true -> op_eq m b c = true -> op_eq m a c = true)
  /\ ((op_lt m a b = true /\ op_eq m a b = false /\ op_lt m b a = false)
      \/ (op_lt m a b = false /\ op_eq m a b = true /\ op_lt m b a = false)
      \/ (op_lt m a b = false /\ op_eq m a b = false /\ op_lt m b a = true)).
Proof.
  split; [apply compare_swap|].
  assert (Hrefl : compare m a a = 0).
  { pose proof (compare_swap m a a). lia. }
  split; [unfold op_lt; rewrite Hrefl; reflexivity|].
  split; [unfold op_eq; rewrite Hrefl; reflexivity|].
  split; [|split].
  - rewrite !op_lt_iff. intros [H1 | [E1 B1]] [H2 | [E2 B2]]; try (left; lia).
    right. split; [lia|]. rewrite E1 in B1 |- *.
    rewrite <- E1 in B1 |- *. apply (bytes_less_trans m _ (_begin b)); [exact B1|].
    rewrite E1. exact B2.
  - rewrite !op_eq_iff. intros [E1 H1] [E2 H2]. split; [lia|].
    intros i Hi. rewrite (H1 i Hi). apply H2. rewrite <- E1. exact Hi.
  - unfold op_lt, op_eq. rewrite (compare_swap m a b).
    destruct (Z.lt_total (compare m a b) 0) as [H | [H | H]].
    + left. rewrite (proj2 (Z.ltb_lt _ _)), (proj2 (Z.eqb_neq _ _)),
        (proj2 (Z.ltb_ge _ _)) by lia. auto.
    + right. left. rewrite (proj2 (Z.ltb_ge _ _)), (proj2 (Z.eqb_eq _ _)),
        (proj2 (Z.ltb_ge _ _)) by lia. auto.
    + right. right. rewrite (proj2 (Z.ltb_ge _ _)), (proj2 (Z.eqb_neq _ _)),
        (proj2 (Z.ltb_lt _ _)) by lia. auto.
Qed.

(** *** More on substr and on strings *)

Lemma substr_outside (r : ScriptRef) (p s : Z) :
  size r <= p -> substr r p s = ScriptRef_default.
Proof.
  intros H. unfold substr. fold (size r).
  destruct (p >=? size r) eqn:E; [reflexivity | lia].
Qed.

Lemma substr_inside (r : ScriptRef) (p s : Z) :
  valid r -> 0 <= p < size r -> 0 <= s ->
  substr r p s = mkRef (_begin r + p) (_begin r + p + Z.min s (size r - p)).
Proof.
  intros Hv Hp Hs. pose proof (size_valid r Hv) as Hsz.
  destruct Hv as (Hb0 & Hbe & He).
  unfold substr. fold (size r).
  destruct (p >=? size r) eqn:E; [lia|].
  rewrite to_size_t_small by lia.
  destruct (s >? size r - p) eqn:G; f_equal; lia.
Qed.

Lemma chars_default (m : Memory) : chars m ScriptRef_default = [].
Proof. reflexivity. Qed.

Lemma chars_length (m : Memory) (r : ScriptRef) :
  length (chars m r) = Z.to_nat (size r).
Proof. unfold chars. rewrite length_map, length_seq. reflexivity. Qed.

Lemma chars_substr (m : Memory) (r : ScriptRef) (p s : Z) :
  valid r -> 0 <= p < size r -> 0 <= s ->
  chars m (substr r p s)
  = take (Z.to_nat (Z.min s (size r - p))) (drop (Z.to_nat p) (chars m r)).
Proof.
  intros Hv Hp Hs. rewrite (substr_inside r p s Hv Hp Hs).
  pose proof (size_valid r Hv) as Hsz. destruct Hv as (Hb0 & Hbe & He).
  rewrite chars_mkRef by lia.
  unfold chars. rewrite skipn_map, firstn_map, skipn_seq, take_seq.
  replace (_begin r + p + Z.min s (size r - p) - (_begin r + p))
    with (Z.min s (size r - p)) by lia.
  replace (Init.Nat.min (Z.to_nat (Z.min s (size r - p)))
             (Z.to_nat (size r) - Z.to_nat p))
    with (Z.to_nat (Z.min s (size r - p))) by lia.
  rewrite (map_seq_shift _ (0 + Z.to_nat p)).
  apply map_ext. intros i. f_equal. lia.
Qed.

(** X9: cutting a valid range at any index k loses nothing: the
    characters of [substr(0, k)] followed by those of [substr(k)] are
    the characters of the range.  [substr(0)] of a non-empty range is
    the range itself, of an empty range it is the null range. *)
Theorem substr_split (m : Memory) (r : ScriptRef) (k : Z) :
  valid r -> is_size_t k ->
  chars m (substr r 0 k) ++ chars m (substr r k npos) = chars m r
  /\ (0 < size r -> substr r 0 npos = r)
  /\ (size r = 0 -> substr r 0 npos = ScriptRef_default).
Proof.
  intros Hv Hk. unfold is_size_t in Hk.
  pose proof (size_range r) as Hr. pose proof (size_valid r Hv) as Hsz.
  pose proof (chars_length m r) as Hlen.
  split; [|split].
  - destruct (Z.eq_dec (size r) 0) as [E0|E0].
    + rewrite !substr_outside by lia. rewrite chars_default. cbn [app].
      symmetry. apply length_zero_iff_nil. rewrite Hlen, E0. reflexivity.
    + rewrite (chars_substr m r 0 k Hv) by lia.
      rewrite Z.sub_0_r. change (Z.to_nat 0) with O. rewrite drop_0.
      destruct (Z_lt_le_dec k (size r)) as [Hlt|Hge].
      * rewrite (chars_substr m r k npos Hv) by (unfold npos; lia).
        replace (Z.min k (size r)) with k by lia.
        rewrite (take_ge (drop (Z.to_nat k) (chars m r)))
          by (rewrite length_drop, Hlen; unfold npos; lia).
        apply take_drop.
      * rewrite (substr_outside r k npos Hge), chars_default, app_nil_r.
        apply take_ge. rewrite Hlen. lia.
  - intros Hpos. rewrite (substr_inside r 0 npos Hv) by (unfold npos; lia).
    destruct r as [b e]. cbn [_begin _end] in *. f_equal; unfold npos; lia.
  - intros E0. apply substr_outside. lia.
Qed.

Lemma substr_split_witness :
  chars (fun a => a mod 7) (substr (mkRef 1000 1010) 0 4)
  ++ chars (fun a => a mod 7) (substr (mkRef 1000 1010) 4 npos)
  = chars (fun a => a mod 7) (mkRef 1000 1010).
Proof.
  apply (substr_split (fun a => a mod 7) (mkRef 1000 1010) 4).
  - unfold valid; cbn; lia.
  - unfold is_size_t; lia.
Defined.

(** X10: a sub-range of a sub-range is a sub-range of the original:
    for p inside r and p' inside [substr r p s], taking
    [substr(p', s')] of [substr r p s] is taking
    [substr(p + p', min(s', min(s, n - p) - p'))] of r. *)
Theorem substr_compose (r : ScriptRef) (p s p' s' : Z) :
  valid r -> is_size_t s -> is_size_t s' ->
  0 <= p < size r -> 0 <= p' < Z.min s (size r - p) ->
  substr (substr r p s) p' s'
  = substr r (p + p') (Z.min s' (Z.min s (size r - p) - p')).
Proof.
  intros Hv Hs Hs' Hp Hp'. unfold is_size_t in Hs, Hs'.
  pose proof (size_valid r Hv) as Hsz.
  rewrite (substr_inside r p s Hv Hp) by lia.
  rewrite (substr_inside r (p + p') _ Hv) by lia.
  destruct Hv as (Hb0 & Hbe & He).
  set (L := Z.min s (size r - p)) in *.
  assert (Hv1 : valid (mkRef (_begin r + p) (_begin r + p + L))).
  { unfold valid. cbn [_begin _end]. lia. }
  assert (Hs1 : size (mkRef (_begin r + p) (_begin r + p + L)) = L).
  { rewrite (size_valid _ Hv1). cbn [_begin _end]. lia. }
  rewrite (substr_inside _ p' s' Hv1) by (rewrite ?Hs1; lia).
  rewrite Hs1. cbn [_begin _end]. f_equal; lia.
Qed.

Lemma substr_compose_witness :
  substr (substr (mkRef 1000 1010) 2 6) 1 3
  = substr (mkRef 1000 1010) (2 + 1)
      (Z.min 3 (Z.min 6 (size (mkRef 1000 1010) - 2) - 1)).
Proof.
  apply (substr_compose (mkRef 1000 1010) 2 6 1 3).
  - unfold valid; cbn; lia.
  - unfold is_size_t; lia.
  - unfold is_size_t; lia.
  - vm_compute. split; discriminate || reflexivity.
  - vm_compute. split; discriminate || reflexivity.
Defined.

(** X11: toString gives the characters of the range, the empty string
    for an empty range; a temporary reference made from a string that
    the memory holds reads back as that string, with its length. *)
Theorem toString_tempFrom (m : Memory) (r : ScriptRef) (a : Z) (str : list Z) :
  0 <= a -> a + Z.of_nat (length str) < 2 ^ 64 -> holds m a str ->
  toString m r = chars m r
  /\ (ScriptRef_bool r = false -> toString m r = [])
  /\ toString m (tempFrom a (Z.of_nat (length str))) = str
  /\ size (tempFrom a (Z.of_nat (length str))) = Z.of_nat (length str).
Proof.
  intros Ha Hfit Hm.
  assert (Hts : forall q, toString m q = chars m q).
  { intros q. unfold toString, ScriptRef_bool.
    destruct (_begin q =? _end q) eqn:E; cbn [negb]; [|reflexivity].
    apply Z.eqb_eq in E. unfold chars, size. rewrite E, Z.sub_diag. reflexivity. }
  split; [apply Hts|]. split.
  { intros Hb. unfold toString. rewrite Hb. reflexivity. }
  assert (Hsize : size (tempFrom a (Z.of_nat (length str))) = Z.of_nat (length str)).
  { unfold size, tempFrom. cbn [_begin _end].
    replace (a + Z.of_nat (length str) - a) with (Z.of_nat (length str)) by lia.
    apply to_size_t_small. lia. }
  split; [|exact Hsize].
  rewrite Hts. unfold chars. rewrite Hsize, Nat2Z.id.
  apply (nth_ext _ _ 0 0).
  - rewrite length_map, length_seq. reflexivity.
  - intros i Hi. rewrite length_map, length_seq in Hi.
    rewrite nth_map_seq by exact Hi.
    destruct (lookup_lt_is_Some_2 str i Hi) as [x Hx].
    rewrite (nth_lookup_Some _ _ _ _ Hx). cbn [tempFrom _begin].
    apply Hm. exact Hx.
Qed.

Lemma toString_tempFrom_witness :
  toString (fun a => a - 2000) (tempFrom 2000 (Z.of_nat (length [0; 1; 2])))
  = [0; 1; 2].
Proof.
  apply (toString_tempFrom (fun a => a - 2000) ScriptRef_default 2000 [0; 1; 2]).
  - lia.
  - cbn. lia.
  - intros i x Hx. destruct i as [|[|[|i]]]; cbn in Hx; try discriminate;
      injection Hx as <-; reflexivity.
Defined.

End RefFacts.

(** ** The register file *)
Module WorkerFacts.
Import Cpp Container Worker.

Lemma sizeof_remove_cv (T : CType) : sizeof (remove_cv T) = sizeof T.
Proof. destruct T as [c o|c u|u]; reflexivity. Qed.

Lemma sizeof_decay (T : CType) : sizeof (decay T) = sizeof T.
Proof.
  unfold decay. rewrite sizeof_remove_cv. destruct T; reflexivity.
Qed.

(** *** Offsets are prefix sums of the sizes *)

Lemma offset_sum (Args : list CType) (i : nat) :
  offset Args i = sum_list (map sizeof (take i Args)).
Proof.
  revert i. induction Args as [|First Rest IH]; intros i.
  - destruct i; reflexivity.
  - destruct Rest as [|Second Rest'].
    + destruct i as [|i]; cbn; [reflexivity|]. destruct i; cbn; lia.
    + destruct i as [|[|i]]; [reflexivity | cbn; lia |].
      change (offset (First :: Second :: Rest') (S (S i)))
        with (sizeof First + offset (Second :: Rest') (S i)).
      rewrite IH. reflexivity.
Qed.

Lemma sum_list_map_app (l k : list CType) :
  sum_list (map sizeof (l ++ k)) = sum_list (map sizeof l) + sum_list (map sizeof k).
Proof. induction l as [|x l IH]; cbn; [reflexivity | rewrite IH; lia]. Qed.

Lemma offset_S (Args : list CType) (i : nat) (T : CType) :
  Args !! i = Some T -> offset Args (S i) = offset Args i + sizeof T.
Proof.
  intros H. rewrite !offset_sum. rewrite (take_S_r _ _ _ H).
  rewrite sum_list_map_app. cbn. lia.
Qed.

Lemma offset_mono (Args : list CType) (i k : nat) :
  i <= k -> offset Args i <= offset Args k.
Proof.
  intros H. rewrite !offset_sum.
  replace k with (i + (k - i)) by lia.
  rewrite <- (take_drop i (take (i + (k - i)) Args)).
  rewrite take_take. replace (i `min` (i + (k - i))) with i by lia.
  rewrite sum_list_map_app. lia.
Qed.

Lemma offset_slot_end (Args : list CType) (i : nat) (T : CType) :
  Args !! i = Some T -> offset Args i + sizeof T <= offsetOutput Args.
Proof.
  intros H. rewrite <- (offset_S _ _ _ H). apply offset_mono.
  apply lookup_lt_Some in H. lia.
Qed.

Lemma slots_disjoint (Args : list CType) (i k : nat) (T : CType) :
  Args !! i = Some T -> i < k -> offset Args i + sizeof T <= offset Args k.
Proof.
  intros H Hik. rewrite <- (offset_S _ _ _ H). apply offset_mono. lia.
Qed.

(** *** One access *)

Lemma ref_set_Some (T : CType) (off : nat) (v : list Z) (reg : RegFile) :
  length v = sizeof T -> off + sizeof T <= length reg ->
  ref_set (decay T) off v reg = Some (list_inserts off v reg).
Proof.
  intros Hv Hfit. unfold ref_set. rewrite !sizeof_decay.
  rewrite (proj2 (Nat.eqb_eq _ _) Hv), (proj2 (Nat.leb_le _ _) Hfit). reflexivity.
Qed.

Lemma ref_get_Some (T : CType) (off : nat) (reg : RegFile) :
  off + sizeof T <= length reg ->
  ref_get (decay T) off reg = Some (take (sizeof T) (drop off reg)).
Proof.
  intros Hfit. unfold ref_get. rewrite !sizeof_decay.
  rewrite (proj2 (Nat.leb_le _ _) Hfit). reflexivity.
Qed.

Lemma take_drop_ext (n off : nat) (reg reg' : RegFile) :
  (forall j, off <= j < off + n -> reg' !! j = reg !! j) ->
  take n (drop off reg') = take n (drop off reg).
Proof.
  intros H. apply list_eq. intros x.
  rewrite !lookup_take. destruct (decide (x < n)); [|reflexivity].
  rewrite !lookup_drop. apply H. lia.
Qed.

Lemma take_drop_inserts (off : nat) (v : list Z) (reg : RegFile) :
  off + length v <= length reg ->
  take (length v) (drop off (list_inserts off v reg)) = v.
Proof.
  intros Hfit. apply list_eq. intros x.
  rewrite lookup_take. destruct (decide (x < length v)) as [Hx|Hx].
  - rewrite lookup_drop. rewrite list_lookup_inserts by lia.
    f_equal. lia.
  - symmetry. apply lookup_ge_None. lia.
Qed.

Lemma take_drop_length (n off : nat) (reg : RegFile) :
  off + n <= length reg -> length (take n (drop off reg)) = n.
Proof. intros H. rewrite length_take, length_drop. lia. Qed.

(** *** The loop over the slots *)

Lemma typed_lookup (Args : list CType) (arg : Tuple) (i : nat) (T : CType) :
  typed Args arg -> Args !! i = Some T ->
  exists v, arg !! i = Some v /\ length v = sizeof T.
Proof.
  intros Ht Hi. destruct (Forall2_lookup_l _ _ _ _ _ Ht Hi) as (v & Hv & Hl).
  exists v. split; assumption.
Qed.

Lemma typed_insert (Args : list CType) (arg : Tuple) (i : nat) (T : CType)
    (v : list Z) :
  typed Args arg -> Args !! i = Some T -> length v = sizeof T ->
  typed Args (<[i := v]> arg).
Proof.
  intros Ht Hi Hv. unfold typed.
  rewrite <- (list_insert_id Args i T Hi).
  apply Forall2_insert; assumption.
Qed.

Lemma slot_Some (B : nat) (Args : list CType) (i : nat) (T : CType) (reg : RegFile) :
  Args !! i = Some T ->
  slot B Args i reg = take (sizeof T) (drop (B + offset Args i) reg).
Proof. intros H. unfold slot. rewrite H. reflexivity. Qed.

(** Filters that only write: every selected slot ends up holding the
    tuple element, every byte outside the selected slots is kept. *)
Lemma forRegImpl_writes (B : nat) (Filter : CType -> PosTag)
    (Args : list CType) (arg : Tuple) :
  (forall T, Filter T <> RegGet) -> typed Args arg ->
  forall (n k : nat) (reg : RegFile),
    k + n <= length Args -> B + offsetOutput Args <= length reg ->
    exists reg',
      forRegImpl B Filter Args (seq k n) reg arg = Some (reg', arg)
      /\ length reg' = length reg
      /\ (forall i T v, k <= i < k + n -> Args !! i = Some T ->
            Filter T = RegSet -> arg !! i = Some v -> slot B Args i reg' = v)
      /\ (forall j,
            (forall i T, k <= i < k + n -> Args !! i = Some T -> Filter T = RegSet ->
               ~ (B + offset Args i <= j < B + offset Args i + sizeof T)) ->
            reg' !! j = reg !! j).
Proof.
  intros Hf Ht. induction n as [|n IH]; intros k reg Hk Hfit.
  - exists reg. cbn. repeat split; try reflexivity. intros; lia.
  - destruct (lookup_lt_is_Some_2 Args k ltac:(lia)) as [T HT].
    destruct (typed_lookup _ _ _ _ Ht HT) as (v & Hv & Hlen).
    pose proof (offset_slot_end _ _ _ HT) as Hend.
    assert (Hstep : exists reg1,
      forRegImplLoop B k Args (Filter T) reg arg = Some (reg1, arg)
      /\ length reg1 = length reg
      /\ (Filter T = RegSet -> slot B Args k reg1 = v)
      /\ (forall j, (Filter T = RegSet ->
                     ~ (B + offset Args k <= j < B + offset Args k + sizeof T)) ->
                    reg1 !! j = reg !! j)).
    { destruct (Filter T) eqn:F.
      - exists (list_inserts (B + offset Args k) v reg).
        unfold forRegImplLoop. rewrite HT, Hv. cbn [bind].
        rewrite ref_set_Some by lia. cbn [bind].
        split; [reflexivity|]. split; [apply length_inserts|]. split.
        + intros _. rewrite (slot_Some _ _ _ _ _ HT), <- Hlen.
          apply take_drop_inserts. lia.
        + intros j Hj. specialize (Hj eq_refl).
          destruct (Nat.lt_ge_cases j (B + offset Args k)).
          * apply list_lookup_inserts_lt. assumption.
          * apply list_lookup_inserts_ge. lia.
      - exists reg. repeat split; try reflexivity. intros H; discriminate H.
      - exfalso. exact (Hf T F). }
    destruct Hstep as (reg1 & Hrun & Hl1 & Hslot1 & Hframe1).
    destruct (IH (S k) reg1 ltac:(lia) ltac:(lia)) as (reg' & Hrest & Hl & Hslots & Hframe).
    exists reg'. cbn [seq forRegImpl]. rewrite HT. cbn [bind].
    rewrite Hrun. cbn [bind fst snd].
    split; [exact Hrest|]. split; [lia|]. split.
    + intros i U w Hi HU FU Hw.
      destruct (decide (i = k)) as [->|Hne].
      * rewrite HT in HU. injection HU as <-. rewrite Hv in Hw. injection Hw as <-.
        rewrite <- (Hslot1 FU). rewrite !(slot_Some _ _ _ _ _ HT).
        apply take_drop_ext. intros j Hj. apply Hframe.
        intros i' T' Hi' HT' _.
        pose proof (slots_disjoint Args k i' T HT ltac:(lia)). lia.
      * apply (Hslots i U w); [lia | assumption..].
    + intros j Hj. rewrite Hframe.
      * apply Hframe1. intros F. apply (Hj k T); [lia | assumption..].
      * intros i U Hi HU FU. apply (Hj i U); [lia | assumption..].
Qed.

(** Filters that only read: the register file is kept, every selected
    element is replaced by the bytes of its slot, the others are kept. *)
Lemma forRegImpl_reads (B : nat) (Filter : CType -> PosTag)
    (Args : list CType) (reg : RegFile) :
  (forall T, Filter T <> RegSet) -> B + offsetOutput Args <= length reg ->
  forall (n k : nat) (arg : Tuple),
    k + n <= length Args -> typed Args arg ->
    exists arg',
      forRegImpl B Filter Args (seq k n) reg arg = Some (reg, arg')
      /\ typed Args arg'
      /\ (forall i T, k <= i < k + n -> Args !! i = Some T -> Filter T = RegGet ->
            arg' !! i = Some (slot B Args i reg))
      /\ (forall i,
            (forall T, k <= i < k + n -> Args !! i = Some T -> Filter T <> RegGet) ->
            arg' !! i = arg !! i).
Proof.
  intros Hf Hfit. induction n as [|n IH]; intros k arg Hk Ht.
  - exists arg. cbn. repeat split; try assumption; try reflexivity. intros; lia.
  - destruct (lookup_lt_is_Some_2 Args k ltac:(lia)) as [T HT].
    destruct (typed_lookup _ _ _ _ Ht HT) as (v & Hv & Hlen).
    pose proof (offset_slot_end _ _ _ HT) as Hend.
    assert (Hstep : exists arg1,
      forRegImplLoop B k Args (Filter T) reg arg = Some (reg, arg1)
      /\ typed Args arg1
      /\ (Filter T = RegGet -> arg1 !! k = Some (slot B Args k reg))
      /\ (forall i, (i = k -> Filter T <> RegGet) -> arg1 !! i = arg !! i)).
    { destruct (Filter T) eqn:F.
      - exfalso. exact (Hf T F).
      - exists arg. repeat split; try assumption; try reflexivity.
        intros H; discriminate H.
      - exists (<[k := slot B Args k reg]> arg).
        unfold forRegImplLoop. rewrite HT. cbn [bind].
        rewrite ref_get_Some by lia. cbn [bind].
        rewrite (slot_Some _ _ _ _ _ HT).
        split; [reflexivity|]. split.
        + apply (typed_insert _ _ _ T); [assumption..|].
          apply take_drop_length. lia.
        + split.
          * intros _. apply list_lookup_insert_eq. apply lookup_lt_Some in Hv. exact Hv.
          * intros i Hi. apply list_lookup_insert_ne. intros ->. apply Hi; reflexivity. }
    destruct Hstep as (arg1 & Hrun & Ht1 & Hslot1 & Hframe1).
    destruct (IH (S k) arg1 ltac:(lia) Ht1) as (arg' & Hrest & Ht' & Hslots & Hframe).
    exists arg'. cbn [seq forRegImpl]. rewrite HT. cbn [bind].
    rewrite Hrun. cbn [bind fst snd].
    split; [exact Hrest|]. split; [exact Ht'|]. split.
    + intros i U Hi HU FU.
      destruct (decide (i = k)) as [->|Hne].
      * rewrite HT in HU. injection HU as <-.
        rewrite Hframe by (intros; lia). apply Hslot1. exact FU.
      * apply (Hslots i U); [lia | assumption..].
    + intros i Hi. rewrite Hframe.
      * apply Hframe1. intros ->. apply (Hi T); [lia | assumption].
      * intros U Hi' HU. apply Hi; [lia | assumption].
Qed.

(** *** set, reset, get, updateBase *)

Lemma forReg_range (Args : list CType) : 0 + length Args <= length Args.
Proof. lia. Qed.

Lemma set_spec (Args : list CType) (arg : Tuple) (reg : RegFile) :
  typed Args arg -> offsetOutput Args <= length reg ->
  exists reg',
    set Args arg reg = Some reg'
    /\ length reg' = length reg
    /\ (forall i v, arg !! i = Some v -> slot 0 Args i reg' = v)
    /\ (forall j, offsetOutput Args <= j -> reg' !! j = reg !! j).
Proof.
  intros Ht Hfit.
  destruct (forRegImpl_writes 0 SetAllRegs Args arg ltac:(intros T; discriminate) Ht
              (length Args) 0 reg (forReg_range Args) ltac:(cbn; lia))
    as (reg' & Hrun & Hl & Hslots & Hframe).
  exists reg'. unfold set, forReg. rewrite Hrun. cbn [bind fst].
  split; [reflexivity|]. split; [exact Hl|]. split.
  - intros i v Hv.
    assert (Hi : i < length Args).
    { rewrite (Forall2_length _ _ _ Ht). apply lookup_lt_Some in Hv. exact Hv. }
    destruct (lookup_lt_is_Some_2 Args i Hi) as [T HT].
    apply (Hslots i T v); [lia | assumption | reflexivity | assumption].
  - intros j Hj. apply Hframe. intros i T Hi HT _.
    pose proof (offset_slot_end _ _ _ HT). cbn. lia.
Qed.

Lemma reset_spec (Args : list CType) (arg : Tuple) (reg : RegFile) :
  typed Args arg -> offsetOutput Args <= length reg ->
  exists reg',
    reset Args arg reg = Some reg'
    /\ length reg' = length reg
    /\ (forall i T v, Args !! i = Some T -> is_reference T = false ->
          arg !! i = Some v -> slot 0 Args i reg' = v)
    /\ (forall i T, Args !! i = Some T -> is_reference T = true ->
          slot 0 Args i reg' = slot 0 Args i reg)
    /\ (forall j, offsetOutput Args <= j -> reg' !! j = reg !! j).
Proof.
  intros Ht Hfit.
  assert (Hf : forall T, SetReadonlyRegs T <> RegGet).
  { intros T. unfold SetReadonlyRegs. destruct (negb _); discriminate. }
  assert (Htag : forall T, SetReadonlyRegs T = RegSet <-> is_reference T = false).
  { intros T. unfold SetReadonlyRegs. rewrite ParserFacts.isOutput_isRef.
    unfold TypeInfoImpl.isRef. destruct (is_reference T); cbn; split; congruence. }
  destruct (forRegImpl_writes 0 SetReadonlyRegs Args arg Hf Ht
              (length Args) 0 reg (forReg_range Args) ltac:(cbn; lia))
    as (reg' & Hrun & Hl & Hslots & Hframe).
  exists reg'. unfold reset, forReg. rewrite Hrun. cbn [bind fst].
  split; [reflexivity|]. split; [exact Hl|]. split; [|split].
  - intros i T v HT HR Hv.
    apply (Hslots i T v); [apply lookup_lt_Some in HT; lia | assumption | | assumption].
    apply Htag. exact HR.
  - intros i T HT HR. rewrite !(slot_Some _ _ _ _ _ HT).
    apply take_drop_ext. intros j Hj. apply Hframe.
    intros k U Hk HU FU. apply Htag in FU.
    destruct (Nat.lt_total i k) as [Hlt | [-> | Hgt]].
    + pose proof (slots_disjoint Args i k T HT Hlt). lia.
    + rewrite HT in HU. injection HU as <-. congruence.
    + pose proof (slots_disjoint Args k i U HU Hgt). lia.
  - intros j Hj. apply Hframe. intros i T Hi HT _.
    pose proof (offset_slot_end _ _ _ HT). cbn. lia.
Qed.

Lemma get_spec (Args : list CType) (arg : Tuple) (reg : RegFile) :
  typed Args arg -> offsetOutput Args <= length reg ->
  exists arg',
    get Args arg reg = Some arg'
    /\ typed Args arg'
    /\ (forall i T, Args !! i = Some T ->
          arg' !! i = if is_reference T then Some (slot 0 Args i reg) else arg !! i).
Proof.
  intros Ht Hfit.
  assert (Hf : forall T, GetWritableRegs T <> RegSet).
  { intros T. unfold GetWritableRegs. destruct (TypeInfoImpl.isOutput T); discriminate. }
  assert (Htag : forall T, GetWritableRegs T = RegGet <-> is_reference T = true).
  { intros T. unfold GetWritableRegs. rewrite ParserFacts.isOutput_isRef.
    unfold TypeInfoImpl.isRef. destruct (is_reference T); cbn; split; congruence. }
  destruct (forRegImpl_reads 0 GetWritableRegs Args reg Hf ltac:(cbn; lia)
              (length Args) 0 arg (forReg_range Args) Ht)
    as (arg' & Hrun & Ht' & Hslots & Hframe).
  exists arg'. unfold get, forReg. rewrite Hrun. cbn [bind snd].
  split; [reflexivity|]. split; [exact Ht'|].
  intros i T HT. destruct (is_reference T) eqn:R.
  - apply (Hslots i T); [apply lookup_lt_Some in HT; lia | assumption |].
    apply Htag. exact R.
  - apply Hframe. intros U _ HU FU. rewrite HT in HU. injection HU as <-.
    apply Htag in FU. congruence.
Qed.

Lemma memset_all (reg : RegFile) (c : Z) :
  length reg = ScriptMaxReg -> memset reg c ScriptMaxReg = replicate ScriptMaxReg c.
Proof.
  intros H. unfold memset. rewrite drop_ge by lia. apply app_nil_r.
Qed.

(** C5: after updateBase the register file holds each input value in
    its slot, the slots being laid out back to back from the end of the
    output region, and every byte that lies in no input slot is zero. *)
Theorem updateBase_layout (OutputArgs Args : list CType) (args : Tuple)
    (reg : RegFile) :
  typed Args args ->
  length reg = ScriptMaxReg ->
  offsetOutput OutputArgs + offsetOutput Args <= ScriptMaxReg ->
  exists reg',
    updateBase OutputArgs Args args reg = Some reg'
    /\ length reg' = ScriptMaxReg
    /\ (forall i v, args !! i = Some v ->
          slot (offsetOutput OutputArgs) Args i reg' = v)
    /\ offset Args 0 = 0
    /\ (forall i T, Args !! i = Some T -> offset Args (S i) = offset Args i + sizeof T)
    /\ (forall j, j < ScriptMaxReg ->
          (forall i T, Args !! i = Some T ->
             ~ (offsetOutput OutputArgs + offset Args i <= j
                < offsetOutput OutputArgs + offset Args i + sizeof T)) ->
          reg' !! j = Some 0%Z).
Proof.
  intros Ht Hlen Hfit.
  destruct (forRegImpl_writes (offsetOutput OutputArgs) SetAllRegs Args args
              ltac:(intros T; discriminate) Ht (length Args) 0
              (replicate ScriptMaxReg 0%Z) (forReg_range Args)
              ltac:(rewrite length_replicate; lia))
    as (reg' & Hrun & Hl & Hslots & Hframe).
  exists reg'. unfold updateBase, forReg. rewrite (memset_all _ _ Hlen), Hrun.
  cbn [bind fst].
  split; [reflexivity|]. split; [rewrite Hl; apply length_replicate|]. split; [|split; [|split]].
  - intros i v Hv.
    assert (Hi : i < length Args).
    { rewrite (Forall2_length _ _ _ Ht). apply lookup_lt_Some in Hv. exact Hv. }
    destruct (lookup_lt_is_Some_2 Args i Hi) as [T HT].
    apply (Hslots i T v); [lia | assumption | reflexivity | assumption].
  - rewrite offset_sum. reflexivity.
  - intros i T HT. apply offset_S. exact HT.
  - intros j Hj Hout. rewrite Hframe.
    + apply lookup_replicate_2. exact Hj.
    + intros i T _ HT _. apply (Hout i T HT).
Qed.

Lemma updateBase_layout_witness :
  exists reg',
    updateBase BlitOutput [Obj false Tint; Ptr false (Obj true (Tclass 0 false 0))]
      [[1; 2; 3; 4]; [9; 9; 9; 9; 9; 9; 9; 9]]%Z (replicate ScriptMaxReg 7%Z)
    = Some reg'.
Proof.
  destruct (updateBase_layout BlitOutput
              [Obj false Tint; Ptr false (Obj true (Tclass 0 false 0))]
              [[1; 2; 3; 4]; [9; 9; 9; 9; 9; 9; 9; 9]]%Z (replicate ScriptMaxReg 7%Z))
    as (reg' & H & _).
  - repeat constructor.
  - reflexivity.
  - vm_compute. lia.
  - exists reg'. exact H.
Defined.

(** *** execute *)

(** C6 (as stated, refuted): with the output type of the blit worker,
    [ScriptOutputArgs<int&, int>], the second slot of the output region
    is not copied back into the caller's argument. *)
Lemma execute_keeps_readonly_slot :
  execute bump BlitOutput (mkContainer [0%Z])
    [[0; 0; 0; 0]; [0; 0; 0; 0]]%Z (replicate ScriptMaxReg 0%Z)
  = Some (replicate ScriptMaxReg 1%Z, [[1; 1; 1; 1]; [0; 0; 0; 0]]%Z)
  /\ slot 0 BlitOutput 1 (replicate ScriptMaxReg 1%Z) = [1; 1; 1; 1]%Z
  /\ ~ (forall executeBase OutputArgs c arg reg reg' arg' i,
          execute executeBase OutputArgs c arg reg = Some (reg', arg') ->
          i < length OutputArgs ->
          arg' !! i = Some (slot 0 OutputArgs i reg')).
Proof.
  assert (E : execute bump BlitOutput (mkContainer [0%Z])
    [[0; 0; 0; 0]; [0; 0; 0; 0]]%Z (replicate ScriptMaxReg 0%Z)
    = Some (replicate ScriptMaxReg 1%Z, [[1; 1; 1; 1]; [0; 0; 0; 0]]%Z))
    by (vm_compute; reflexivity).
  split; [exact E|]. split; [vm_compute; reflexivity|].
  intros H. specialize (H _ _ _ _ _ _ _ 1 E ltac:(cbn; lia)).
  vm_compute in H. discriminate H.
Qed.

(** C6 (amended): a typed execute is the three-step sequence.  set
    copies every slot of the caller's output argument into the output
    region and touches nothing beyond it; executeBase runs the
    container's bytecode; get copies back the output-region values of
    the slots declared as references and leaves the other slots of the
    caller's argument as they were. *)
Theorem execute_three_steps
    (executeBase : option (list Z) -> RegFile -> RegFile)
    (OutputArgs : list CType) (c : ScriptContainerBase)
    (arg : Tuple) (reg : RegFile) :
  (forall proc r, length (executeBase proc r) = length r) ->
  typed OutputArgs arg ->
  offsetOutput OutputArgs <= length reg ->
  exists reg1 arg',
    set OutputArgs arg reg = Some reg1
    /\ (forall i v, arg !! i = Some v -> slot 0 OutputArgs i reg1 = v)
    /\ (forall j, offsetOutput OutputArgs <= j -> reg1 !! j = reg !! j)
    /\ get OutputArgs arg (executeBase (ScriptContainerBase_data c) reg1) = Some arg'
    /\ execute executeBase OutputArgs c arg reg
       = Some (executeBase (ScriptContainerBase_data c) reg1, arg')
    /\ (forall i T, OutputArgs !! i = Some T ->
          arg' !! i =
          if is_reference T
          then Some (slot 0 OutputArgs i (executeBase (ScriptContainerBase_data c) reg1))
          else arg !! i).
Proof.
  intros Hexec Ht Hfit.
  destruct (set_spec OutputArgs arg reg Ht Hfit) as (reg1 & Hset & Hl1 & Hslots & Hframe).
  destruct (get_spec OutputArgs arg (executeBase (ScriptContainerBase_data c) reg1) Ht
              ltac:(rewrite Hexec; lia)) as (arg' & Hget & _ & Hback).
  exists reg1, arg'. unfold execute. rewrite Hset. cbn [bind]. rewrite Hget. cbn [bind].
  repeat split; assumption || reflexivity.
Qed.

Lemma bump_length (proc : option (list Z)) (r : RegFile) :
  length (bump proc r) = length r.
Proof. apply length_map. Qed.

Lemma execute_three_steps_witness :
  exists reg1 arg',
    execute bump BlitOutput (mkContainer [0%Z])
      [[0; 0; 0; 0]; [0; 0; 0; 0]]%Z (replicate ScriptMaxReg 0%Z)
    = Some (bump (Some [0%Z]) reg1, arg').
Proof.
  destruct (execute_three_steps bump BlitOutput (mkContainer [0%Z])
              [[0; 0; 0; 0]; [0; 0; 0; 0]]%Z (replicate ScriptMaxReg 0%Z))
    as (reg1 & arg' & _ & _ & _ & _ & H & _).
  - exact bump_length.
  - repeat constructor.
  - vm_compute. lia.
  - exists reg1, arg'. exact H.
Defined.

(** *** execute with events *)

Section Events.
Variable executeBase : option (list Z) -> RegFile -> RegFile.
Hypothesis executeBase_length : forall proc r, length (executeBase proc r) = length r.
Variable OutputArgs : list CType.
Variable arg : Tuple.
Hypothesis arg_typed : typed OutputArgs arg.

Lemma resetAndRun_Some (scripts : list (option (list Z))) (reg : RegFile) :
  offsetOutput OutputArgs <= length reg ->
  exists reg',
    resetAndRun executeBase OutputArgs arg scripts reg = Some reg'
    /\ length reg' = length reg.
Proof using executeBase_length arg_typed.
  revert reg. induction scripts as [|proc rest IH]; intros reg Hfit.
  - exists reg. split; reflexivity.
  - destruct (reset_spec OutputArgs arg reg arg_typed Hfit) as (r1 & Hr & Hl & _).
    destruct (IH (executeBase proc r1) ltac:(rewrite executeBase_length; lia))
      as (reg' & Hrun & Hl').
    exists reg'. cbn [resetAndRun]. rewrite Hr. cbn [bind].
    split; [exact Hrun|]. rewrite Hl', executeBase_length. exact Hl.
Qed.

Lemma resetAndRun_app (l1 l2 : list (option (list Z))) (reg r1 r2 : RegFile) :
  resetAndRun executeBase OutputArgs arg l1 reg = Some r1 ->
  resetAndRun executeBase OutputArgs arg l2 r1 = Some r2 ->
  resetAndRun executeBase OutputArgs arg (l1 ++ l2) reg = Some r2.
Proof.
  revert reg. induction l1 as [|proc rest IH]; intros reg H1 H2.
  - cbn in H1. injection H1 as ->. exact H2.
  - cbn [resetAndRun app] in *.
    destruct (reset OutputArgs arg reg) as [r|]; [|discriminate H1].
    cbn [bind] in *. apply IH; assumption.
Qed.

(** The loop runs the chain up to its terminator and stops on it. *)
Lemma runEvents_chain (chain : list ScriptContainerBase)
    (t0 : ScriptContainerBase) (rest : list ScriptContainerBase)
    (reg reg' : RegFile) :
  Forall (fun e => ScriptContainerBase_bool e = true) chain ->
  ScriptContainerBase_bool t0 = false ->
  resetAndRun executeBase OutputArgs arg (map ScriptContainerBase_data chain) reg
    = Some reg' ->
  runEvents executeBase OutputArgs arg (chain ++ t0 :: rest) reg
    = Some (t0 :: rest, reg').
Proof.
  intros Hall Ht0. revert reg. induction Hall as [|e chain He Hall IH]; intros reg Hrun.
  - cbn in Hrun. injection Hrun as ->. cbn. rewrite Ht0. reflexivity.
  - cbn [map resetAndRun] in Hrun. cbn [app runEvents]. rewrite He.
    destruct (reset OutputArgs arg reg) as [r|]; [|discriminate Hrun].
    cbn [bind] in *. apply IH. exact Hrun.
Qed.

End Events.

Lemma truthy_data (chain : list ScriptContainerBase) :
  Forall (fun e => ScriptContainerBase_bool e = true) chain ->
  map ScriptContainerBase_data chain = map (fun e => Some (_proc e)) chain.
Proof.
  induction 1 as [|e chain He _ IH]; [reflexivity|].
  cbn [map]. rewrite IH. unfold ScriptContainerBase_data. rewrite He. reflexivity.
Qed.

Lemma main_data (c : ScriptContainerEventsBase) :
  ScriptContainerEventsBase_data c
  = if empty (_proc (_current c)) then None else Some (_proc (_current c)).
Proof.
  unfold ScriptContainerEventsBase_data, ScriptContainerBase_data,
    ScriptContainerBase_bool.
  destruct (empty (_proc (_current c))); reflexivity.
Qed.




(** *** More on offsets, set, get and reset *)

(** X18: [offset<Args...>(i)] is the sum of the sizes of the first i
    types of the pack: it starts at 0, never decreases, and from the
    size of the pack on it stays at the total size. *)
Theorem offset_prefix_sum (Args : list CType) (i k : nat) :
  offset Args i = sum_list (map sizeof (take i Args))
  /\ offset Args 0 = 0
  /\ (i <= k -> offset Args i <= offset Args k)
  /\ (length Args <= i -> offset Args i = offsetOutput Args)
  /\ (forall T, Args !! i = Some T -> offset Args (S i) = offset Args i + sizeof T).
Proof.
  split; [apply offset_sum|]. split; [rewrite offset_sum; reflexivity|].
  split; [apply offset_mono|]. split.
  - intros H. unfold offsetOutput. rewrite !offset_sum.
    rewrite !take_ge by lia. reflexivity.
  - intros T. apply offset_S.
Qed.

Lemma slot_cover (Args : list CType) (j : nat) :
  j < offsetOutput Args ->
  exists i T, Args !! i = Some T /\ offset Args i <= j < offset Args i + sizeof T.
Proof.
  unfold offsetOutput.
  assert (H : forall n, n <= length Args -> j < offset Args n ->
            exists i T, Args !! i = Some T
                        /\ offset Args i <= j < offset Args i + sizeof T).
  { induction n as [|n IH]; intros Hn Hj.
    - assert (H0 : offset Args 0 = 0) by (rewrite offset_sum; reflexivity). lia.
    - destruct (lookup_lt_is_Some_2 Args n ltac:(lia)) as [T HT].
      rewrite (offset_S _ _ _ HT) in Hj.
      destruct (Nat.lt_ge_cases j (offset Args n)) as [Hlt|Hge].
      + apply IH; [lia | exact Hlt].
      + exists n, T. split; [exact HT | lia]. }
  apply H. lia.
Qed.

Lemma slot_lookup (B : nat) (Args : list CType) (i : nat) (T : CType)
    (reg : list Z) (j : nat) :
  Args !! i = Some T ->
  B + offset Args i <= j < B + offset Args i + sizeof T ->
  reg !! j = slot B Args i reg !! (j - (B + offset Args i)).
Proof.
  intros HT Hj. rewrite (slot_Some _ _ _ _ _ HT).
  rewrite lookup_take_lt by lia. rewrite lookup_drop. f_equal. lia.
Qed.

Lemma reset_set_id (Args : list CType) (arg : Tuple) (reg reg1 : RegFile) :
  typed Args arg -> offsetOutput Args <= length reg ->
  set Args arg reg = Some reg1 -> reset Args arg reg1 = Some reg1.
Proof.
  intros Ht Hfit Hset.
  destruct (set_spec Args arg reg Ht Hfit) as (r1 & Hset' & Hl1 & Hslots & _).
  rewrite Hset in Hset'. injection Hset' as <-.
  destruct (reset_spec Args arg reg1 Ht ltac:(lia)) as (r2 & Hreset & Hl2 & Hro & Hrw & Hout).
  rewrite Hreset. f_equal. apply list_eq. intros j.
  destruct (Nat.lt_ge_cases j (offsetOutput Args)) as [Hin|Hge]; [|apply Hout; exact Hge].
  destruct (slot_cover Args j Hin) as (i & T & HT & Hj).
  rewrite (slot_lookup 0 Args i T r2 j HT) by (cbn; lia).
  rewrite (slot_lookup 0 Args i T reg1 j HT) by (cbn; lia).
  f_equal. destruct (is_reference T) eqn:R.
  - apply (Hrw i T HT R).
  - destruct (typed_lookup _ _ _ _ Ht HT) as (v & Hv & _).
    rewrite (Hro i T v HT R Hv). symmetry. apply Hslots. exact Hv.
Qed.

(** X19: what set stores, get reads back.  After set, get returns the
    caller's argument unchanged; read into another tuple, it overwrites
    the reference slots with the stored values and keeps the others. *)
Theorem get_set_roundtrip (Args : list CType) (arg arg0 : Tuple) (reg : RegFile) :
  typed Args arg -> typed Args arg0 -> offsetOutput Args <= length reg ->
  exists reg1 arg',
    set Args arg reg = Some reg1
    /\ get Args arg reg1 = Some arg
    /\ get Args arg0 reg1 = Some arg'
    /\ (forall i T, Args !! i = Some T ->
          arg' !! i = if is_reference T then arg !! i else arg0 !! i).
Proof.
  intros Ht Ht0 Hfit.
  destruct (set_spec Args arg reg Ht Hfit) as (reg1 & Hset & Hl1 & Hslots & _).
  assert (Hget : forall a, typed Args a ->
            exists a', get Args a reg1 = Some a' /\ typed Args a'
              /\ forall i T, Args !! i = Some T ->
                   a' !! i = if is_reference T then arg !! i else a !! i).
  { intros a Ha.
    destruct (get_spec Args a reg1 Ha ltac:(lia)) as (a' & Hg & Hta & Hback).
    exists a'. split; [exact Hg|]. split; [exact Hta|].
    intros i T HT. rewrite (Hback i T HT). destruct (is_reference T); [|reflexivity].
    destruct (typed_lookup _ _ _ _ Ht HT) as (v & Hv & _).
    rewrite Hv. f_equal. apply Hslots. exact Hv. }
  destruct (Hget arg Ht) as (a1 & Hg1 & Ht1 & Hb1).
  destruct (Hget arg0 Ht0) as (a2 & Hg2 & _ & Hb2).
  exists reg1, a2. split; [exact Hset|]. split; [|split; assumption].
  rewrite Hg1. f_equal. apply list_eq. intros i.
  destruct (Args !! i) as [T|] eqn:HT.
  - specialize (Hb1 i T HT). destruct (is_reference T); exact Hb1.
  - apply lookup_ge_None in HT.
    transitivity (@None (list Z)); [apply lookup_ge_None_2 | symmetry; apply lookup_ge_None_2].
    + rewrite <- (Forall2_length _ _ _ Ht1). exact HT.
    + rewrite <- (Forall2_length _ _ _ Ht). exact HT.
Qed.

Lemma get_set_roundtrip_witness :
  exists reg1 arg',
    set BlitOutput [[1; 2; 3; 4]; [5; 6; 7; 8]]%Z (replicate ScriptMaxReg 0%Z) = Some reg1
    /\ get BlitOutput [[1; 2; 3; 4]; [5; 6; 7; 8]]%Z reg1
       = Some [[1; 2; 3; 4]; [5; 6; 7; 8]]%Z
    /\ get BlitOutput [[0; 0; 0; 0]; [9; 9; 9; 9]]%Z reg1 = Some arg'.
Proof.
  destruct (get_set_roundtrip BlitOutput [[1; 2; 3; 4]; [5; 6; 7; 8]]%Z
              [[0; 0; 0; 0]; [9; 9; 9; 9]]%Z (replicate ScriptMaxReg 0%Z))
    as (reg1 & arg' & H1 & H2 & H3 & _).
  - repeat constructor.
  - repeat constructor.
  - vm_compute. lia.
  - exists reg1, arg'. repeat split; assumption.
Defined.

(** X20: an events container without events behaves as a plain
    container.  When the chain pointer is null, or both chains are
    empty, execute on the events container gives what execute gives on
    its main script: the reset after set changes nothing. *)
Theorem executeEvents_without_events
    (executeBase : option (list Z) -> RegFile -> RegFile)
    (OutputArgs : list CType) (c : ScriptContainerEventsBase)
    (arg : Tuple) (reg : RegFile) :
  typed OutputArgs arg ->
  offsetOutput OutputArgs <= length reg ->
  eventChains (dataEvents c) [] [] ->
  executeEvents executeBase OutputArgs c arg reg
  = execute executeBase OutputArgs (_current c) arg reg
  /\ exists reg1, set OutputArgs arg reg = Some reg1
                  /\ reset OutputArgs arg reg1 = Some reg1.
Proof.
  intros Ht Hfit Hchain.
  destruct (set_spec OutputArgs arg reg Ht Hfit) as (reg1 & Hset & _).
  pose proof (reset_set_id OutputArgs arg reg reg1 Ht Hfit Hset) as Hreset.
  split; [|exists reg1; split; assumption].
  unfold executeEvents, execute, ScriptContainerEventsBase_data.
  rewrite Hset. cbn [bind].
  remember (@nil ScriptContainerBase) as before eqn:Eb in Hchain at 1.
  remember (@nil ScriptContainerBase) as after eqn:Ea in Hchain.
  destruct Hchain as [|bf t0 af t1 rest Hbf Ht0 Haf Ht1].
  - cbn [bind fst snd]. rewrite Hreset. reflexivity.
  - subst bf af. cbn [app runEvents]. rewrite Ht0. cbn [bind fst snd tail runEvents].
    rewrite Hreset. cbn [bind]. rewrite Ht1. reflexivity.
Qed.

Lemma executeEvents_without_events_witness :
  executeEvents bump BlitOutput
    (mkContainerEvents (mkContainer [5%Z]) (Some [mkContainer []; mkContainer []]))
    [[1; 1; 1; 1]; [2; 2; 2; 2]]%Z (replicate ScriptMaxReg 0%Z)
  = execute bump BlitOutput (mkContainer [5%Z])
      [[1; 1; 1; 1]; [2; 2; 2; 2]]%Z (replicate ScriptMaxReg 0%Z).
Proof.
  apply (executeEvents_without_events bump BlitOutput
           (mkContainerEvents (mkContainer [5%Z]) (Some [mkContainer []; mkContainer []]))
           [[1; 1; 1; 1]; [2; 2; 2; 2]]%Z (replicate ScriptMaxReg 0%Z)).
  - repeat constructor.
  - vm_compute. lia.
  - apply (chains_array [] (mkContainer []) [] (mkContainer []) []); repeat constructor.
Defined.

(** *** The register file after updateBase, in closed form *)

Lemma concat_offset (Args : list CType) (args : list (list Z)) (i : nat) :
  typed Args args -> length (concat (take i args)) = offset Args i.
Proof.
  intros Ht. rewrite offset_sum. revert i.
  induction Ht as [|T v Args args Hv Ht IH]; intros i.
  - destruct i; reflexivity.
  - destruct i as [|i]; [reflexivity|].
    cbn [take firstn concat map sum_list sum_list_with]. rewrite length_app, IH, Hv.
    reflexivity.
Qed.

Lemma concat_total (Args : list CType) (args : list (list Z)) :
  typed Args args -> length (concat args) = offsetOutput Args.
Proof.
  intros Ht. unfold offsetOutput. rewrite <- (concat_offset Args args _ Ht).
  rewrite take_ge by (rewrite (Forall2_length _ _ _ Ht); lia). reflexivity.
Qed.

Lemma concat_lookup (Args : list CType) (args : list (list Z)) (i : nat)
    (T : CType) (v : list Z) (x : nat) :
  typed Args args -> Args !! i = Some T -> args !! i = Some v ->
  offset Args i <= x < offset Args i + sizeof T ->
  concat args !! x = v !! (x - offset Args i).
Proof.
  intros Ht HT Hv Hx.
  assert (Hlen : length v = sizeof T) by exact (Forall2_lookup_lr _ _ _ _ _ _ Ht HT Hv).
  rewrite <- (take_drop_middle args i v Hv) at 1.
  rewrite concat_app. cbn [concat].
  rewrite lookup_app_r by (rewrite (concat_offset Args args i Ht); lia).
  rewrite (concat_offset Args args i Ht).
  apply lookup_app_l. lia.
Qed.

Lemma updateBase_closed (OutputArgs Args : list CType) (args : list (list Z))
    (reg : list Z) :
  typed Args args ->
  length reg = ScriptMaxReg ->
  offsetOutput OutputArgs + offsetOutput Args <= ScriptMaxReg ->
  updateBase OutputArgs Args args reg
  = Some (replicate (offsetOutput OutputArgs) 0%Z ++ concat args
          ++ replicate (ScriptMaxReg - offsetOutput OutputArgs - offsetOutput Args) 0%Z).
Proof.
  intros Ht Hlen Hfit.
  set (B := offsetOutput OutputArgs) in *.
  destruct (forRegImpl_writes B SetAllRegs Args args
              ltac:(intros T; discriminate) Ht (length Args) 0
              (replicate ScriptMaxReg 0%Z) (forReg_range Args)
              ltac:(rewrite length_replicate; lia))
    as (reg' & Hrun & Hl & Hslots & Hframe).
  unfold updateBase, forReg. fold B. rewrite (memset_all _ _ Hlen), Hrun.
  cbn [bind fst]. f_equal.
  pose proof (concat_total Args args Ht) as Htot.
  rewrite length_replicate in Hl.
  unfold RegFile in *.
  apply list_eq. intros j.
  destruct (Nat.lt_ge_cases j B) as [HjB|HjB].
  - rewrite Hframe.
    + rewrite lookup_app_l by (rewrite length_replicate; exact HjB).
      rewrite !lookup_replicate_2 by lia. reflexivity.
    + intros i T _ HT _. lia.
  - rewrite lookup_app_r by (rewrite length_replicate; exact HjB).
    rewrite length_replicate.
    destruct (Nat.lt_ge_cases j (B + offsetOutput Args)) as [Hin|Hout].
    + rewrite lookup_app_l by lia.
      destruct (slot_cover Args (j - B) ltac:(lia)) as (i & T & HT & Hj).
      destruct (typed_lookup _ _ _ _ Ht HT) as (v & Hv & Hvl).
      rewrite (slot_lookup B Args i T reg' j HT) by lia.
      rewrite (Hslots i T v ltac:(apply lookup_lt_Some in HT; lia) HT eq_refl Hv).
      rewrite (concat_lookup Args args i T v (j - B) Ht HT Hv Hj).
      f_equal. lia.
    + rewrite lookup_app_r by lia. rewrite Htot.
      rewrite Hframe.
      * destruct (Nat.lt_ge_cases j ScriptMaxReg) as [Hlt|Hge].
        -- rewrite !lookup_replicate_2 by lia. reflexivity.
        -- transitivity (@None Z); [apply lookup_ge_None_2 | symmetry; apply lookup_ge_None_2];
             rewrite length_replicate; lia.
      * intros i T _ HT _. pose proof (offset_slot_end _ _ _ HT). lia.
Qed.

(** X21: after updateBase the register file is the zeroed output
    region, the input values one after the other, and zeros up to
    [ScriptMaxReg]; it does not depend on what the register file held
    before. *)
Theorem updateBase_closed_form (OutputArgs Args : list CType) (args : Tuple)
    (reg reg0 : RegFile) :
  typed Args args ->
  length reg = ScriptMaxReg -> length reg0 = ScriptMaxReg ->
  offsetOutput OutputArgs + offsetOutput Args <= ScriptMaxReg ->
  updateBase OutputArgs Args args reg
  = Some (replicate (offsetOutput OutputArgs) 0%Z ++ concat args
          ++ replicate (ScriptMaxReg - offsetOutput OutputArgs - offsetOutput Args) 0%Z)
  /\ updateBase OutputArgs Args args reg = updateBase OutputArgs Args args reg0.
Proof.
  intros Ht Hl Hl0 Hfit.
  rewrite (updateBase_closed OutputArgs Args args reg Ht Hl Hfit).
  rewrite (updateBase_closed OutputArgs Args args reg0 Ht Hl0 Hfit).
  split; reflexivity.
Qed.

Lemma updateBase_closed_form_witness :
  updateBase BlitOutput [Obj false Tint] [[1; 2; 3; 4]]%Z (replicate ScriptMaxReg 7%Z)
  = updateBase BlitOutput [Obj false Tint] [[1; 2; 3; 4]]%Z (replicate ScriptMaxReg 9%Z).
Proof.
  apply (updateBase_closed_form BlitOutput [Obj false Tint] [[1; 2; 3; 4]]%Z
           (replicate ScriptMaxReg 7%Z) (replicate ScriptMaxReg 9%Z)).
  - repeat constructor.
  - reflexivity.
  - reflexivity.
  - vm_compute. lia.
Defined.

(** X22: the inputs laid out by updateBase survive the set and the
    resets of execute: after updateBase, a set and a reset with any
    output argument, every input slot still holds its input value. *)
Theorem inputs_survive_set_reset (OutputArgs Args : list CType)
    (args arg : Tuple) (reg : RegFile) :
  typed Args args -> typed OutputArgs arg ->
  length reg = ScriptMaxReg ->
  offsetOutput OutputArgs + offsetOutput Args <= ScriptMaxReg ->
  exists reg0 reg1 reg2,
    updateBase OutputArgs Args args reg = Some reg0
    /\ set OutputArgs arg reg0 = Some reg1
    /\ reset OutputArgs arg reg1 = Some reg2
    /\ (forall i v, args !! i = Some v ->
          slot (offsetOutput OutputArgs) Args i reg0 = v
          /\ slot (offsetOutput OutputArgs) Args i reg1 = v
          /\ slot (offsetOutput OutputArgs) Args i reg2 = v).
Proof.
  intros Hta Hto Hlen Hfit.
  set (B := offsetOutput OutputArgs) in *.
  destruct (forRegImpl_writes B SetAllRegs Args args
              ltac:(intros T; discriminate) Hta (length Args) 0
              (replicate ScriptMaxReg 0%Z) (forReg_range Args)
              ltac:(rewrite length_replicate; lia))
    as (reg0 & Hrun & Hl0 & Hslots & _).
  rewrite length_replicate in Hl0.
  destruct (set_spec OutputArgs arg reg0 Hto ltac:(fold B; lia))
    as (reg1 & Hset & Hl1 & _ & Hout1).
  destruct (reset_spec OutputArgs arg reg1 Hto ltac:(fold B; lia))
    as (reg2 & Hreset & Hl2 & _ & _ & Hout2).
  exists reg0, reg1, reg2.
  split.
  { unfold updateBase, forReg. fold B. rewrite (memset_all _ _ Hlen), Hrun. reflexivity. }
  split; [exact Hset|]. split; [exact Hreset|].
  intros i v Hv.
  assert (Hi : i < length Args).
  { rewrite (Forall2_length _ _ _ Hta). apply lookup_lt_Some in Hv. exact Hv. }
  destruct (lookup_lt_is_Some_2 Args i Hi) as [T HT].
  pose proof (Hslots i T v ltac:(lia) HT eq_refl Hv) as H0.
  assert (H1 : slot B Args i reg1 = slot B Args i reg0).
  { rewrite !(slot_Some _ _ _ _ _ HT). apply take_drop_ext.
    intros j Hj. apply Hout1. fold B. lia. }
  assert (H2 : slot B Args i reg2 = slot B Args i reg1).
  { rewrite !(slot_Some _ _ _ _ _ HT). apply take_drop_ext.
    intros j Hj. apply Hout2. fold B. lia. }
  split; [exact H0|]. split; congruence.
Qed.

Lemma inputs_survive_set_reset_witness :
  exists reg0 reg1 reg2,
    updateBase BlitOutput [Obj false Tint] [[1; 2; 3; 4]]%Z (replicate ScriptMaxReg 7%Z)
      = Some reg0
    /\ set BlitOutput [[5; 5; 5; 5]; [6; 6; 6; 6]]%Z reg0 = Some reg1
    /\ reset BlitOutput [[5; 5; 5; 5]; [6; 6; 6; 6]]%Z reg1 = Some reg2.
Proof.
  destruct (inputs_survive_set_reset BlitOutput [Obj false Tint] [[1; 2; 3; 4]]%Z
              [[5; 5; 5; 5]; [6; 6; 6; 6]]%Z (replicate ScriptMaxReg 7%Z))
    as (reg0 & reg1 & reg2 & H0 & H1 & H2 & _).
  - repeat constructor.
  - repeat constructor.
  - reflexivity.
  - vm_compute. lia.
  - exists reg0, reg1, reg2. repeat split; assumption.
Defined.

(** X23: updating the blit worker with a non-empty container stores the
    container's bytecode and loads the register file from the inputs
    alone: whatever an earlier update or clear left in the worker is
    overwritten. *)
Theorem update_overwrites (Args : list CType) (c : ScriptContainerBase)
    (args : Tuple) (w w0 : ScriptWorkerBlit) :
  typed Args args ->
  length (blit_reg w) = ScriptMaxReg -> length (blit_reg w0) = ScriptMaxReg ->
  offsetOutput BlitOutput + offsetOutput Args <= ScriptMaxReg ->
  _proc c <> [] ->
  update Args c args w
  = Some (mkBlit (replicate (offsetOutput BlitOutput) 0%Z ++ concat args
                  ++ replicate (ScriptMaxReg - offsetOutput BlitOutput
                                - offsetOutput Args) 0%Z)
                 (Some (_proc c)))
  /\ update Args c args w = update Args c args w0
  /\ update Args c args (clear w) = update Args c args w.
Proof.
  intros Ht Hl Hl0 Hfit Hne.
  assert (Hb : ScriptContainerBase_bool c = true).
  { unfold ScriptContainerBase_bool. destruct c as [[|x v]]; [contradiction | reflexivity]. }
  assert (Hu : forall x, length (blit_reg x) = ScriptMaxReg ->
            update Args c args x
            = Some (mkBlit (replicate (offsetOutput BlitOutput) 0%Z ++ concat args
                            ++ replicate (ScriptMaxReg - offsetOutput BlitOutput
                                          - offsetOutput Args) 0%Z)
                           (Some (_proc c)))).
  { intros x Hx. unfold update, ScriptContainerBase_data. rewrite Hb.
    rewrite (updateBase_closed BlitOutput Args args (blit_reg x) Ht Hx Hfit).
    reflexivity. }
  rewrite (Hu w Hl), (Hu w0 Hl0), (Hu (clear w) Hl). repeat split.
Qed.

Lemma update_overwrites_witness :
  update [Obj false Tint] (mkContainer [1%Z]) [[1; 2; 3; 4]]%Z
    (mkBlit (replicate ScriptMaxReg 7%Z) None)
  = update [Obj false Tint] (mkContainer [1%Z]) [[1; 2; 3; 4]]%Z
      (mkBlit (replicate ScriptMaxReg 9%Z) (Some [3%Z])).
Proof.
  apply (update_overwrites [Obj false Tint] (mkContainer [1%Z]) [[1; 2; 3; 4]]%Z
           (mkBlit (replicate ScriptMaxReg 7%Z) None)
           (mkBlit (replicate ScriptMaxReg 9%Z) (Some [3%Z]))).
  - repeat constructor.
  - reflexivity.
  - reflexivity.
  - vm_compute. lia.
  - discriminate.
Defined.

End WorkerFacts.

(** ** Containers *)
Module ContainerFacts.
Import Container Worker.

Lemma empty_nil {A} (v : list A) : empty v = true <-> v = [].
Proof. destruct v; cbn; split; congruence. Qed.

(** C3 (as stated, refuted): an events container whose main script is
    empty is truthy. *)
Lemma events_container_truthy_when_empty :
  ScriptContainerEventsBase_bool (mkContainerEvents (mkContainer []) None) = true
  /\ _proc (_current (mkContainerEvents (mkContainer []) None)) = []
  /\ ~ (forall c : ScriptContainerEventsBase,
          ScriptContainerEventsBase_bool c = true <-> _proc (_current c) <> []).
Proof.
  split; [reflexivity|]. split; [reflexivity|].
  intros H. destruct (H (mkContainerEvents (mkContainer []) None)) as [H1 _].
  apply H1; reflexivity.
Qed.

(** C3 (amended): a plain script container is truthy if and only if its
    bytecode vector is non-empty; an empty one is falsy, hands out the
    null data pointer, and the blit worker updated with it drops its
    script instead of loading the registers; the events variant is
    truthy whatever its bytecode. *)
Theorem container_truthiness :
  (forall c : ScriptContainerBase,
      ScriptContainerBase_bool c = true <-> _proc c <> [])
  /\ (forall c : ScriptContainerBase,
      _proc c = [] ->
      ScriptContainerBase_bool c = false /\ ScriptContainerBase_data c = None
      /\ forall Args args w,
           update Args c args w = Some (clear w) /\ blit_proc (clear w) = None)
  /\ (forall c : ScriptContainerEventsBase, ScriptContainerEventsBase_bool c = true).
Proof.
  split; [|split].
  - intros [v]. unfold ScriptContainerBase_bool. cbn.
    destruct v; cbn; split; congruence.
  - intros [v] E. cbn in E. subst v. repeat split; reflexivity.
  - reflexivity.
Qed.

End ContainerFacts.

(** ** ProgPos *)
Module ProgFacts.
Import Prog.
Local Open Scope Z_scope.

(** X5: [operator+=] moves the position by the signed offset modulo
    2^64, so adding an offset and then its negation gives the position
    back; the increments add one, the postfix one returning the old
    position; incrementing [Unknown] yields [Start]. *)
Theorem ProgPos_add_assign (pos k : Z) :
  is_size_t pos -> is_int k -> - 2 ^ 31 < k ->
  add_assign pos k = (pos + k) mod 2 ^ 64
  /\ is_size_t (add_assign pos k)
  /\ add_assign (add_assign pos k) (- k) = pos
  /\ fst (post_inc pos) = pos
  /\ snd (post_inc pos) = (pos + 1) mod 2 ^ 64
  /\ pre_inc Unknown = Start.
Proof.
  intros Hp Hk Hmin. unfold is_size_t in Hp. unfold is_int in Hk.
  assert (Hadd : forall p o, add_assign p o = (p + o) mod 2 ^ 64).
  { intros p o. unfold add_assign, to_size_t. rewrite Z.add_mod_idemp_r by lia.
    reflexivity. }
  split; [apply Hadd|]. split.
  { unfold is_size_t. rewrite Hadd. apply Z.mod_pos_bound. lia. }
  split.
  { rewrite !Hadd. rewrite Z.add_mod_idemp_l by lia.
    replace (pos + k + - k) with pos by lia. apply Z.mod_small. lia. }
  split; [reflexivity|]. split.
  { unfold post_inc, pre_inc. cbn [snd]. apply Hadd. }
  reflexivity.
Qed.

Lemma ProgPos_add_assign_witness :
  add_assign (add_assign 5 (-7)) (- (-7)) = 5.
Proof.
  apply (ProgPos_add_assign 5 (-7)).
  - unfold is_size_t; lia.
  - unfold is_int; lia.
  - lia.
Defined.

End ProgFacts.

(** ** ScriptTag *)
Module TagFacts.
Import Tag.
Local Open Scope Z_scope.

Lemma limit_eq (w : Z) : 0 < w <= 64 -> limit w = 2 ^ w - 1.
Proof.
  intros Hw. unfold limit. apply to_size_t_small.
  assert (2 ^ w <= 2 ^ 64) by (apply Z.pow_le_mono_r; lia).
  assert (0 < 2 ^ w) by (apply Z.pow_pos_nonneg; lia). lia.
Qed.

(** X6: for an index type of w bits (0 < w <= 64), a valid index makes
    a non-null tag whose value is the index, and distinct valid indices
    make distinct tags; 0 is not valid and makes the null tag; one past
    the limit is not valid and, cast to the index type, is the null tag
    again. *)
Theorem ScriptTag_make_get (w i j : Z) :
  0 < w <= 64 -> is_size_t i -> is_size_t j ->
  (isValid w i = true ->
     get (make w i) = i /\ ScriptTag_bool (make w i) = true
     /\ op_eq (make w i) (getNullTag w) = false)
  /\ (isValid w i = true -> isValid w j = true ->
      op_eq (make w i) (make w j) = true -> i = j)
  /\ isValid w 0 = false
  /\ ScriptTag_bool (getNullTag w) = false
  /\ (w < 64 -> isValid w (limit w + 1) = false
               /\ make w (limit w + 1) = getNullTag w).
Proof.
  intros Hw Hi Hj. unfold is_size_t in Hi, Hj.
  pose proof (limit_eq w Hw) as Hl.
  assert (Hpow : 0 < 2 ^ w) by (apply Z.pow_pos_nonneg; lia).
  assert (Hle : 2 ^ w <= 2 ^ 64) by (apply Z.pow_le_mono_r; lia).
  assert (Hvalid : forall x, isValid w x = true -> 0 < x < 2 ^ w \/ x < 0).
  { intros x Hx. unfold isValid in Hx. apply andb_true_iff in Hx as [H1 H2].
    apply negb_true_iff, Z.eqb_neq in H1. apply Z.leb_le in H2. lia. }
  split; [|split; [|split; [|split]]].
  - intros Hv. destruct (Hvalid i Hv) as [H|H]; [|lia].
    unfold getNullTag, get, make, ScriptTag_bool, op_eq. cbn [index].
    rewrite (Z.mod_small i) by lia. rewrite Z.mod_0_l by lia.
    split; [apply to_size_t_small; lia|].
    split; [apply negb_true_iff, Z.eqb_neq; lia | apply Z.eqb_neq; lia].
  - intros Hvi Hvj He. destruct (Hvalid i Hvi) as [H|H]; [|lia].
    destruct (Hvalid j Hvj) as [H'|H']; [|lia].
    unfold op_eq, make in He. cbn [index] in He. apply Z.eqb_eq in He.
    rewrite !Z.mod_small in He by lia. exact He.
  - reflexivity.
  - unfold ScriptTag_bool, getNullTag, make. cbn [index].
    rewrite Z.mod_0_l by lia. reflexivity.
  - intros Hw64. split.
    + unfold isValid. apply andb_false_iff. right. apply Z.leb_gt. lia.
    + unfold getNullTag, make. f_equal. rewrite Hl.
      replace (2 ^ w - 1 + 1) with (2 ^ w) by lia.
      rewrite Z.mod_same, Z.mod_0_l by lia. reflexivity.
Qed.

Lemma ScriptTag_make_get_witness :
  get (make 8 200) = 200 /\ ScriptTag_bool (make 8 200) = true
  /\ op_eq (make 8 200) (getNullTag 8) = false.
Proof.
  destruct (ScriptTag_make_get 8 200 7) as [H _].
  - lia.
  - unfold is_size_t; lia.
  - unfold is_size_t; lia.
  - apply H. reflexivity.
Defined.

End TagFacts.

(** ** ScriptRefData *)
Module RefDataFacts.
Import Cpp Arg Parser RefData.
Local Open Scope Z_scope.

(** X16: a default-constructed value carries the invalid tag: the
    reference holding it tests false, and reading it at any type whose
    base is valid throws "Invalid cast of value". *)
Theorem default_value_invalid_cast (T : CType) (storage : list Z) (r : Registry) :
  Registry_ok r ->
  fst (registeTypeImpl (TypeInfoImpl.t3 T) r) <> ArgInvalid ->
  ScriptRefData_bool (ScriptRefData_default storage) = false
  /\ fst (isValueType T (ScriptRefData_default storage) r) = false
  /\ fst (getValue T (ScriptRefData_default storage) r) = inl InvalidCastOfValue.
Proof.
  intros Hok Hvalid.
  pose proof (ParserFacts.getArgType_base T r Hok) as Hb.
  assert (Hne : fst (getArgType T r) <> ArgInvalid).
  { intros E. rewrite E in Hb. apply Hvalid. rewrite <- Hb. reflexivity. }
  split; [reflexivity|].
  unfold getValue, isValueType, Parser.getValue, Parser.isValueType.
  destruct (getArgType T r) as [a r']. cbn [fst] in *.
  cbn [value ScriptRefData_default Parser.type ScriptValueData_default].
  replace (ArgInvalid =? a) with false by (symmetry; apply Z.eqb_neq; congruence).
  split; reflexivity.
Qed.

Lemma default_value_invalid_cast_witness :
  fst (getValue (Obj false Tint) (ScriptRefData_default [1; 2; 3; 4; 5; 6; 7; 8])
         Registry0)
  = inl InvalidCastOfValue.
Proof.
  apply (default_value_invalid_cast (Obj false Tint) [1; 2; 3; 4; 5; 6; 7; 8] Registry0).
  - exact ParserFacts.Registry0_ok.
  - vm_compute. discriminate.
Defined.

(** X17: getValueOrDefulat never throws: it yields the stored bytes
    read at T when the tag of the stored value is the kind of T, and
    the default otherwise.  The tag consulted is the one of the value,
    not the [type] member of the reference. *)
Theorem getValueOrDefulat_never_throws
    (T : CType) (def : list Z) (d : ScriptRefData) (r : Registry) :
  fst (getValueOrDefulat T def d r)
  = inr (if Parser.type (value d) =? fst (getArgType T r)
         then take (sizeof T) (data (value d)) else def).
Proof.
  unfold getValueOrDefulat, Parser.isValueType.
  pose proof (ParserFacts.getArgType_stable T [] r) as Hst. cbn [getArgTypes fold_left] in Hst.
  destruct (getArgType T r) as [a r1] eqn:E. cbn [fst snd] in *.
  destruct (Parser.type (value d) =? a) eqn:Q; [|reflexivity].
  unfold Parser.getValue, Parser.isValueType. rewrite Hst, Q. reflexivity.
Qed.

End RefDataFacts.
